(** * Tiling and stitching of images around a fixed-size network

    A shallow embedding of [src/zf_unet/utils/img_processing.py]:
    [split_img] cuts a grey image into fixed windows after padding it with a
    white frame, [combine_imgs] pastes a list of windows back on a canvas and
    crops the frame, [normalize_img] / [process_unet_img] rescale between
    [0,255] and [0.0,1.0], and [postprocess_img] thresholds and cleans the
    result.

    Conventions of the embedding.
    - Python integers that are sizes, offsets or shapes are natural numbers;
      the running patch index [i] of [combine_imgs], which the [except]
      branch decrements, is an integer of [Z].
    - A numpy array of two dimensions is its shape together with its rows.
    - [uint8] pixels are integers of [Z]; [float64] values are the binary64
      numbers of the kernel, so [/ 255] and [* 255] round as numpy does.
    - A Python [while] is a loop with fuel: [OutOfFuel] is the only outcome
      of a run that never leaves the loop. *)

From Stdlib Require Import ZArith QArith Qround Lia.
From Stdlib Require Import Floats.PrimFloat Floats.FloatOps Floats.SpecFloat.
From Stdlib Require Import Numbers.Cyclic.Int63.Uint63.
From Stdlib Require Import Strings.String Strings.Ascii Numbers.DecimalString.
From stdpp Require Import base list.

Local Open Scope nat_scope.

(** ** Outcomes of a Python call *)

Inductive exn : Type :=
  | ZeroDivisionError
  | IndexError
  | ValueError.

Inductive outcome (A : Type) : Type :=
  | Returns (a : A)
  | Raises (e : exn)
  | OutOfFuel.

Arguments Returns {A} a.
Arguments Raises {A} e.
Arguments OutOfFuel {A}.

#[global] Instance outcome_bind : MBind outcome := λ A B k m,
  match m with
  | Returns a => k a
  | Raises e => Raises e
  | OutOfFuel => OutOfFuel
  end.

(** [while cond: body] over an explicit loop state. *)
Fixpoint while {S : Type} (fuel : nat) (cond : S → bool)
    (body : S → outcome S) (s : S) : outcome S :=
  match fuel with
  | O => OutOfFuel
  | S fuel' =>
      if cond s then body s ≫= while fuel' cond body else Returns s
  end.

(** [a % b] on non-negative integers. *)
Definition py_mod (a b : nat) : outcome nat :=
  match b with
  | O => Raises ZeroDivisionError
  | S _ => Returns (a mod b)
  end.

(** [l[i]] on a Python list, negative indices counting from the end. *)
Definition py_getitem {A : Type} (l : list A) (i : Z) : outcome A :=
  let n := Z.of_nat (length l) in
  let j := if (i <? 0)%Z then (i + n)%Z else i in
  if (j <? 0)%Z then Raises IndexError
  else match l !! Z.to_nat j with
       | Some a => Returns a
       | None => Raises IndexError
       end.

(** ** Arrays of two dimensions *)

Record ndarray (A : Type) : Type := NdArray {
  shape0 : nat;
  shape1 : nat;
  rows : list (list A)
}.

Arguments NdArray {A} shape0 shape1 rows.
Arguments shape0 {A} _.
Arguments shape1 {A} _.
Arguments rows {A} _.

(** The rows agree with the shape. *)
Definition wf {A : Type} (a : ndarray A) : Prop :=
  length (rows a) = shape0 a ∧ Forall (λ r, length r = shape1 a) (rows a).

(** [a[r, c]], when the position exists. *)
Definition pixel {A : Type} (a : ndarray A) (r c : nat) : option A :=
  rows a !! r ≫= λ row, row !! c.

(** [np.full((h, w), v)]. *)
Definition full {A : Type} (h w : nat) (v : A) : ndarray A :=
  NdArray h w (replicate h (replicate w v)).

(** An operation applied to every element, as numpy's arithmetic and
    [astype] do. *)
Definition map_pixels {A B : Type} (f : A → B) (a : ndarray A) : ndarray B :=
  NdArray (shape0 a) (shape1 a) (map (map f) (rows a)).

(** Length of [l[lo:hi]] for a sequence of length [n]: both ends are clamped
    to the sequence. *)
Definition slice_len (lo hi n : nat) : nat := (hi `min` n) - (lo `min` n).

(** [l[lo:hi]] with non-negative ends. *)
Definition slice {A : Type} (lo hi : nat) (l : list A) : list A :=
  take (hi - lo) (drop lo l).

(** [a[y0:y1, x0:x1]]. *)
Definition getslice2 {A : Type} (a : ndarray A) (y0 y1 x0 x1 : nat) : ndarray A :=
  NdArray (slice_len y0 y1 (shape0 a)) (slice_len x0 x1 (shape1 a))
          (slice x0 x1 <$> slice y0 y1 (rows a)).

(** [cv2.copyMakeBorder(src, top, bottom, left, right, cv2.BORDER_CONSTANT,
    value)] on a grey image: a frame of the constant [value] around [src]. *)
Definition copyMakeBorder {A : Type} (src : ndarray A)
    (top bottom left right : nat) (value : A) : ndarray A :=
  let w := left + shape1 src + right in
  NdArray (top + shape0 src + bottom) w
    (replicate top (replicate w value)
     ++ ((λ row, replicate left value ++ row ++ replicate right value) <$> rows src)
     ++ replicate bottom (replicate w value)).

(** ** [split_img] *)

(** White, the first component of [value=[255, 255, 255]]. *)
Definition white : Z := 255%Z.

(** Lines 15 to 25: the frame. Returns the padded image with its shape read
    back into [max_y], [max_x], and the two border widths. *)
Definition pad_img (img : ndarray Z) (size_x size_y : nat)
    : outcome (ndarray Z * nat * nat * nat * nat) :=
  let max_y := shape0 img in
  let max_x := shape1 img in
  let border_y := 0 in
  ry ← py_mod max_y size_y;
  let '(img, border_y, max_y) :=
    if negb (ry =? 0) then
      let border_y := (size_y - ry + 1) / 2 in
      let img := copyMakeBorder img border_y border_y 0 0 white in
      (img, border_y, shape0 img)
    else (img, border_y, max_y) in
  let border_x := 0 in
  rx ← py_mod max_x size_x;
  let '(img, border_x, max_x) :=
    if negb (rx =? 0) then
      let border_x := (size_x - rx + 1) / 2 in
      let img := copyMakeBorder img 0 0 border_x border_x white in
      (img, border_x, shape1 img)
    else (img, border_x, max_x) in
  Returns (img, max_y, max_x, border_y, border_x).

(** Lines 27 to 35: the raster scan, the state of each loop being the list
    built so far and the running offset. *)
Definition split_scan (fuel : nat) (img : ndarray Z)
    (size_x size_y max_x max_y : nat) : outcome (list (ndarray Z)) :=
  '(parts, _) ←
    while fuel (λ '(parts, curr_y), curr_y + size_y <=? max_y)
      (λ '(parts, curr_y),
         '(parts, _) ←
           while fuel (λ '(parts, curr_x), curr_x + size_x <=? max_x)
             (λ '(parts, curr_x),
                Returns (parts ++ [getslice2 img curr_y (curr_y + size_y)
                                             curr_x (curr_x + size_x)],
                         curr_x + size_x))
             (parts, 0);
         Returns (parts, curr_y + size_y))
      ([], 0);
  Returns parts.

Definition split_img (fuel : nat) (img : ndarray Z) (size_x size_y : nat)
    : outcome (list (ndarray Z) * nat * nat) :=
  '(img, max_y, max_x, border_y, border_x) ← pad_img img size_x size_y;
  parts ← split_scan fuel img size_x size_y max_x max_y;
  Returns (parts, border_y, border_x).

(** ** [combine_imgs] *)

(** Storing into a [float64] array casts the stored value. *)
Class AsFloat (T : Type) : Type := as_float : T → float.

#[global] Instance uint8_as_float : AsFloat Z := λ z, of_uint63 (of_Z z).
#[global] Instance float_as_float : AsFloat float := λ x, x.

(** [np.zeros((h, w), np.float)], [np.float] being the alias of [float64]
    of the numpy versions the code is written for. *)
Definition zeros (h w : nat) : ndarray float := full h w 0%float.

(** numpy lets a value axis of length [from] fill a target axis of length
    [into] when the two agree or when the value axis has length one. *)
Definition can_broadcast (from into : nat) : bool :=
  (from =? into) || (from =? 1).

(** [img[y0:y1, x0:x1] = v] on a [float64] array: [ValueError] when the
    shape of [v] does not broadcast to the clamped window, and otherwise the
    window is overwritten in place. *)
Definition setslice2 {T : Type} `{AsFloat T} (img : ndarray float)
    (y0 y1 x0 x1 : nat) (v : ndarray T) : outcome (ndarray float) :=
  let ty := slice_len y0 y1 (shape0 img) in
  let tx := slice_len x0 x1 (shape1 img) in
  if can_broadcast (shape0 v) ty && can_broadcast (shape1 v) tx then
    Returns
      (NdArray (shape0 img) (shape1 img)
         (imap (λ r row,
            if (y0 <=? r) && (r <? y1) then
              imap (λ c old,
                if (x0 <=? c) && (c <? x1) then
                  match pixel v (if shape0 v =? 1 then 0 else r - y0)
                                (if shape1 v =? 1 then 0 else c - x0) with
                  | Some p => as_float p
                  | None => old
                  end
                else old) row
            else row) (rows img)))
  else Raises ValueError.

(** [try: body / except: handler]: a bare [except] catches every exception. *)
Definition try_except {A : Type} (body : outcome A) (handler : outcome A)
    : outcome A :=
  match body with
  | Raises _ => handler
  | o => o
  end.

(** Lines 52 to 64: the raster scan over the canvas [img], the state of each
    loop being the canvas, the index [i] of the next patch and the running
    offset. [max_y] and [max_x] are the values these variables hold after
    lines 48 and 49. *)
Definition combine_scan {T : Type} `{AsFloat T} (fuel : nat)
    (imgs : list (ndarray T)) (img : ndarray float)
    (size_y size_x border_y border_x max_y max_x : nat)
    : outcome (ndarray float * Z) :=
  '(img, i, _) ←
    while fuel (λ '(img, i, curr_y), curr_y + size_y <=? max_y + border_y * 2)
      (λ '(img, i, curr_y),
         '(img, i, _) ←
           while fuel
             (λ '(img, i, curr_x), curr_x + size_x <=? max_x + border_x * 2)
             (λ '(img, i, curr_x),
                '(img, i) ←
                  try_except
                    (v ← py_getitem imgs i;
                     img ← setslice2 img curr_y (curr_y + size_y)
                                         curr_x (curr_x + size_x) v;
                     Returns (img, i))
                    (Returns (img, (i - 1)%Z));
                let i := (i + 1)%Z in
                Returns (img, i, curr_x + size_x))
             (img, i, 0);
         Returns (img, i, curr_y + size_y))
      (img, 0%Z, 0);
  Returns (img, i).

Definition combine_imgs {T : Type} `{AsFloat T} (fuel : nat)
    (imgs : list (ndarray T)) (border_y border_x max_y max_x : nat)
    : outcome (ndarray float) :=
  let max_y := max_y + border_y * 2 in
  let max_x := max_x + border_x * 2 in
  let img := zeros max_y max_x in
  p0 ← py_getitem imgs 0%Z;
  let size_y := shape0 p0 in
  let size_x := shape1 p0 in
  '(img, _) ← combine_scan fuel imgs img size_y size_x
                           border_y border_x max_y max_x;
  Returns (getslice2 img border_y (shape0 img - border_y)
                         border_x (shape1 img - border_x)).

(** ** Rescaling between [0,255] and [0.0,1.0] *)

(** [img.astype(float) / 255], one pixel at a time. *)
Definition normalize (p : Z) : float := (as_float p / 255)%float.

Definition normalize_img (img : ndarray Z) : ndarray float :=
  map_pixels normalize img.

(** The integer part of a finite binary64 number, rounding toward zero
    (0 for the infinities and NaN, whose cast C leaves undefined). *)
Definition float_trunc (x : float) : Z :=
  match Prim2SF x with
  | S754_finite s m e =>
      let v := match e with
               | Zneg p => Z.shiftr (Zpos m) (Zpos p)
               | _ => Z.shiftl (Zpos m) e
               end in
      if s then (- v)%Z else v
  | _ => 0%Z
  end.

(** [x.astype(np.uint8)] of a [float64]: the fraction is dropped; a value
    outside [0,255] is reduced modulo 256 (the claims only cast values in
    range). *)
Definition astype_uint8 (x : float) : Z := (float_trunc x mod 256)%Z.

(** Lines 93 and 94 of [process_unet_img]: [img * 255] and the cast. *)
Definition denormalize (x : float) : Z := astype_uint8 (x * 255)%float.

Definition denormalize_img (img : ndarray float) : ndarray Z :=
  map_pixels denormalize img.

(** ** [postprocess_img]

    The function is under [src/], but its three steps are calls into OpenCV
    ([cv2.threshold], [cv2.erode], [cv2.dilate]) whose code is not. They are
    modelled from section 4.3 of the specification, on 8-bit single-channel
    images, with the two points it leaves open settled as OpenCV documents
    them: the threshold search starts from level 0, and positions outside
    the image do not take part in a morphological filter. *)

(** The pixels of an image in raster order. *)
Definition pixels (img : ndarray Z) : list Z := concat (rows img).

(** Pixels at most [t]: how many, and their sum. *)
Definition class_count (img : ndarray Z) (t : Z) : Z :=
  Z.of_nat (length (filter (λ p, (p ≤ t)%Z) (pixels img))).

Definition class_sum (img : ndarray Z) (t : Z) : Z :=
  foldr Z.add 0%Z (filter (λ p, (p ≤ t)%Z) (pixels img)).

(** Between-class variance of the split at [t], for two non-empty classes:
    [q1 * q2 * (mu1 - mu2)^2]. *)
Definition between_class_variance (img : ndarray Z) (t : Z) : Q :=
  let n := class_count img 255 in
  let n1 := class_count img t in
  let n2 := (n - n1)%Z in
  let s1 := class_sum img t in
  let s2 := (class_sum img 255 - s1)%Z in
  let q1 := (inject_Z n1 / inject_Z n)%Q in
  let q2 := (inject_Z n2 / inject_Z n)%Q in
  let mu1 := (inject_Z s1 / inject_Z n1)%Q in
  let mu2 := (inject_Z s2 / inject_Z n2)%Q in
  (q1 * q2 * ((mu1 - mu2) * (mu1 - mu2)))%Q.

(** Modelled from the spec: the threshold search of [cv2.threshold] with
    [THRESH_OTSU], whose code is not under [src/]. The threshold minimises
    the intra-class variance, that is, maximises the between-class variance:
    the levels 0 to 255 are tried in increasing order, a level that leaves a
    class empty is skipped, and a level is kept when its between-class
    variance beats the best so far (which starts at 0, with level 0). *)
Definition otsu_step (img : ndarray Z) (best : Q * Z) (t : Z) : Q * Z :=
  let n1 := class_count img t in
  let n2 := (class_count img 255 - n1)%Z in
  if (n1 =? 0)%Z || (n2 =? 0)%Z then best
  else
    let sigma := between_class_variance img t in
    if Qlt_le_dec (fst best) sigma then (sigma, t) else best.

Definition otsu_threshold (img : ndarray Z) : Z :=
  snd (foldl (otsu_step img) (0%Q, 0%Z) (Z.of_nat <$> seq 0 256)).

(** Modelled from the spec: [cv2.threshold(img, thresh, maxval,
    cv2.THRESH_BINARY + cv2.THRESH_OTSU)], whose code is not under [src/].
    The threshold passed in is replaced by Otsu's, and the result has two
    levels: a pixel above the threshold becomes [maxval], any other 0. *)
Definition threshold_binary_otsu (img : ndarray Z) (thresh maxval : Z)
    : Z * ndarray Z :=
  let t := otsu_threshold img in
  (t, map_pixels (λ p, if (t <? p)%Z then maxval else 0%Z) img).

(** Modelled from the spec: [cv2.getStructuringElement(cv2.MORPH_CROSS,
    (kw, kh))], whose code is not under [src/]: the cross-shaped structuring
    element, ones on the row and on the column of the centre. *)
Definition getStructuringElement_cross (kw kh : nat) : ndarray Z :=
  NdArray kh kw
    ((λ i, (λ j, if (i =? kh / 2) || (j =? kw / 2) then 1%Z else 0%Z)
             <$> seq 0 kw) <$> seq 0 kh).

(** Offsets, from the centre, of the non-zero entries of a kernel. *)
Definition kernel_offsets (kernel : ndarray Z) : list (Z * Z) :=
  let ay := Z.of_nat (shape0 kernel / 2) in
  let ax := Z.of_nat (shape1 kernel / 2) in
  concat
    (imap (λ kr row,
       omap (λ o, o)
         (imap (λ kc k,
            if (k =? 0)%Z then None
            else Some ((Z.of_nat kr - ay)%Z, (Z.of_nat kc - ax)%Z)) row))
       (rows kernel)).

(** The pixel at a signed position, when it lies in the image. *)
Definition pixel_at (img : ndarray Z) (r c : Z) : option Z :=
  if (0 <=? r)%Z && (0 <=? c)%Z then pixel img (Z.to_nat r) (Z.to_nat c)
  else None.

(** The pixels of [img] under the kernel centred at [(r, c)]; positions
    outside the image do not take part (the default border value of the
    morphological filters). *)
Definition neighbours (img kernel : ndarray Z) (r c : nat) : list Z :=
  omap (λ '(dr, dc), pixel_at img (Z.of_nat r + dr) (Z.of_nat c + dc))
       (kernel_offsets kernel).

(** Modelled from the spec: [cv2.erode(img, kernel)], whose code is not
    under [src/]; one iteration: the minimum under the structuring element. *)
Definition erode (img kernel : ndarray Z) : ndarray Z :=
  NdArray (shape0 img) (shape1 img)
    (imap (λ r row,
       imap (λ c _, foldr Z.min 255%Z (neighbours img kernel r c)) row)
       (rows img)).

(** Modelled from the spec: [cv2.dilate(img, kernel)], whose code is not
    under [src/]; one iteration: the maximum under the structuring element
    (the cross is symmetric, so its reflection is the cross itself). *)
Definition dilate (img kernel : ndarray Z) : ndarray Z :=
  NdArray (shape0 img) (shape1 img)
    (imap (λ r row,
       imap (λ c _, foldr Z.max 0%Z (neighbours img kernel r c)) row)
       (rows img)).

(** In [cv2.erode(img, kernel, 1)] the third positional argument is the
    destination, so the number of iterations stays at its default of one. *)
Definition postprocess_img (img : ndarray Z) : ndarray Z :=
  let '(_, img) := threshold_binary_otsu img 0 255 in
  let kernel := getStructuringElement_cross 3 3 in
  let img := erode img kernel in
  let img := dilate img kernel in
  img.

(** ** [preprocess_img], [process_unet_img], [binarize_img] *)

Definition preprocess_img {A : Type} (img : ndarray A) : ndarray A := img.

(** [a.shape = (h, w)]: the elements keep their raster order; [ValueError]
    when their number is not [h * w]. An array of more than two dimensions
    is read here through its first axis and the raster of the others. *)
Definition reshape2 {A : Type} (a : ndarray A) (h w : nat)
    : outcome (ndarray A) :=
  if shape0 a * shape1 a =? h * w then
    Returns (NdArray h w ((λ r, take w (drop (r * w) (concat (rows a))))
                            <$> seq 0 h))
  else Raises ValueError.

(** A [for] loop that collects its results, up to the first exception. *)
Fixpoint for_each {A B : Type} (f : A → outcome B) (l : list A)
    : outcome (list B) :=
  match l with
  | [] => Returns []
  | x :: l' => y ← f x; ys ← for_each f l'; Returns (y :: ys)
  end.

Section inference.
(** [model.predict(parts, batchsize)]: the network is a collaborator of the
    code, any function from a batch of patches to a sequence of arrays. *)
Variable predict : list (ndarray float) → nat → list (ndarray float).

(** [np.array(parts)] stacks the patches; of an empty list it has the shape
    [(0,)], and reading [parts.shape[1]] raises [IndexError]. *)
Definition process_unet_img (fuel : nat) (img : ndarray Z) (batchsize : nat)
    : outcome (ndarray Z) :=
  '(parts, border_y, border_x) ← split_img fuel img 128 128;
  let parts := map_pixels normalize <$> parts in
  _ ← match parts with
      | [] => Raises IndexError
      | _ :: _ => Returns ()
      end;
  let parts := predict parts batchsize in
  tmp ← for_each (λ part, reshape2 part 128 128) parts;
  let parts := tmp in
  img' ← combine_imgs fuel parts border_y border_x (shape0 img) (shape1 img);
  Returns (map_pixels denormalize img').

Definition binarize_img (fuel : nat) (img : ndarray Z) (batchsize : nat)
    : outcome (ndarray Z) :=
  let img := preprocess_img img in
  img ← process_unet_img fuel img batchsize;
  let img := postprocess_img img in
  Returns img.
End inference.

(** ** The file names of [gen_data] ([unet/train.py]) *)

(** ['{}'.format(i)] for a non-negative integer: its decimal digits. *)
Definition str_of_nat (i : nat) : string :=
  NilZero.string_of_uint (Nat.to_uint i).

(** [s[n:]] on a string. *)
Fixpoint string_drop (n : nat) (s : string) : string :=
  match n, s with
  | O, _ => s
  | S n', String _ s' => string_drop n' s'
  | S _, EmptyString => EmptyString
  end.

(** The scan of [s.replace(old, new)] for a non-empty [old]: occurrences
    are taken from left to right and do not overlap. The fuel bounds the
    number of steps, one per character at most. *)
Fixpoint py_replace_scan (fuel : nat) (old new s : string) : string :=
  match fuel with
  | O => s
  | S fuel' =>
      if String.prefix old s then
        (new ++ py_replace_scan fuel' old new
                  (string_drop (String.length old) s))%string
      else
        match s with
        | EmptyString => EmptyString
        | String c s' => String c (py_replace_scan fuel' old new s')
        end
  end.

(** [s.replace(old, new)]; an empty [old] matches before every character
    and at the end. *)
Definition py_replace (s old new : string) : string :=
  match old with
  | EmptyString =>
      (new ++ (fix go (t : string) : string :=
                 match t with
                 | EmptyString => EmptyString
                 | String c t' => String c (new ++ go t')
                 end) s)%string
  | String _ _ => py_replace_scan (S (String.length s)) old new s
  end.

(** Line 67: [['{}_in.png'.format(i) for i in range(start, stop)]]. *)
Definition gen_data_fnames (start stop : nat) : list string :=
  (λ i, (str_of_nat i ++ "_in.png")%string) <$> seq start (stop - start).

(** Line 72: the name under which the ground truth of [fname] is read,
    [fname.replace('in', 'gt')]. *)
Definition gen_data_gt_name (fname : string) : string :=
  py_replace fname "in" "gt".

(** * Notions used in the statements and in the proofs *)

(** [n] rounds of a loop body [f], the offset moving from [k] by [step]. *)
Fixpoint rounds {St : Type} (step : nat) (f : St → nat → outcome St)
    (n : nat) (s : St) (k : nat) : outcome St :=
  match n with
  | O => Returns s
  | S n' => s' ← f s k; rounds step f n' s' (k + step)
  end.

(** The border width of lines 16 to 18 (and 21 to 23) as a function of the
    patch size and of the image size along one axis. *)
Definition border (size n : nat) : nat :=
  if n mod size =? 0 then 0 else (size - n mod size + 1) / 2.

(** The image after both calls of [copyMakeBorder]. *)
Definition padded (img : ndarray Z) (size_x size_y : nat) : ndarray Z :=
  copyMakeBorder
    (copyMakeBorder img (border size_y (shape0 img)) (border size_y (shape0 img))
                    0 0 white)
    0 0 (border size_x (shape1 img)) (border size_x (shape1 img)) white.

(** The windows of a raster scan of [ny] rows of [nx] windows. *)
Definition grid_windows (img : ndarray Z) (size_x size_y nx ny : nat)
    : list (ndarray Z) :=
  concat ((λ R, (λ C, getslice2 img (R * size_y) (R * size_y + size_y)
                                    (C * size_x) (C * size_x + size_x))
                  <$> seq 0 nx) <$> seq 0 ny).

(** Fuel that lets both loops of [split_img] run to their end. *)
Definition split_fuel (img : ndarray Z) : nat := shape0 img + shape1 img + 2.

(** Along one axis, the number of windows of the scan whose store succeeds:
    the whole windows of the canvas, or every window of the scan when the
    patch is one pixel long on that axis (a length of one broadcasts to a
    window that the clamping has emptied). *)
Definition takers (size canvas bound : nat) : nat :=
  if size =? 1 then bound / size else canvas / size.

(** The index in the list of the patch that the scan stores over the canvas
    position [(r, c)], if it stores one there. *)
Definition patch_index (size_y size_x ay ax r c : nat) : option nat :=
  if (r / size_y <? ay) && (c / size_x <? ax)
  then Some (r / size_y * ax + c / size_x)
  else None.

(** The value at [(r, c)] of a canvas on which the first [k] patches have
    been stored. *)
Definition stitched {T : Type} `{AsFloat T} (imgs : list (ndarray T))
    (size_y size_x ay ax k r c : nat) : float :=
  match patch_index size_y size_x ay ax r c with
  | Some j =>
      if j <? k then
        match imgs !! j ≫= λ p, pixel p (r mod size_y) (c mod size_x) with
        | Some v => as_float v
        | None => 0%float
        end
      else 0%float
  | None => 0%float
  end.

(** How many windows took (or would have taken) a patch before the scan
    reaches column [C] of row [R]. *)
Definition taken_before (ay ax R C : nat) : nat :=
  (R `min` ay) * ax + (if R <? ay then C `min` ax else 0).

(** The body of the inner loop of [combine_imgs], without the offset. *)
Definition store {T : Type} `{AsFloat T} (imgs : list (ndarray T))
    (size_y size_x curr_y : nat) (s : ndarray float * Z) (curr_x : nat)
    : outcome (ndarray float * Z) :=
  '(img, i) ←
    try_except
      (v ← py_getitem imgs s.2;
       img ← setslice2 s.1 curr_y (curr_y + size_y)
                           curr_x (curr_x + size_x) v;
       Returns (img, s.2))
      (Returns (s.1, (s.2 - 1)%Z));
  Returns (img, (i + 1)%Z).

(** State of the scan of [combine_imgs] on reaching column [C] of row [R],
    over a canvas of [h] by [w] scanned up to [bound_y] and [bound_x]. *)
Definition scan_inv {T : Type} `{AsFloat T} (imgs : list (ndarray T))
    (size_y size_x h w bound_y bound_x R C : nat) (s : ndarray float * Z)
    : Prop :=
  let ay := takers size_y h bound_y in
  let ax := takers size_x w bound_x in
  let k := taken_before ay ax R C `min` length imgs in
  wf s.1 ∧ shape0 s.1 = h ∧ shape1 s.1 = w ∧ s.2 = Z.of_nat k
  ∧ ∀ r c, r < h → c < w →
      pixel s.1 r c = Some (stitched imgs size_y size_x ay ax k r c).

(** Fuel that lets both loops of [combine_imgs] run to their end. *)
Definition combine_fuel (border_y border_x max_y max_x : nat) : nat :=
  max_y + 4 * border_y + max_x + 4 * border_x + 1.


(** Every pixel is an 8-bit level. *)
Definition uint8_img (img : ndarray Z) : bool :=
  forallb (forallb (λ v, (0 <=? v)%Z && (v <=? 255)%Z)) (rows img).

(** Every pixel is one of the two levels 0 and 255. *)
Definition two_level (img : ndarray Z) : bool :=
  forallb (forallb (λ v, (v =? 0)%Z || (v =? 255)%Z)) (rows img).

(** Fuel that lets the loops of [process_unet_img] run to their end. *)
Definition process_fuel (img : ndarray Z) : nat :=
  shape0 img + shape1 img + 514.

(** * Loops that advance an offset by a fixed step *)

Section counter_loops.
Context {St : Type}.
Variables (step bound : nat) (f : St → nat → outcome St).

Variables (cond : St * nat → bool) (body : St * nat → outcome (St * nat)).
Hypothesis step_pos : 0 < step.
Hypothesis cond_spec : ∀ s k, cond (s, k) = (k + step <=? bound).
Hypothesis body_spec :
  ∀ s k, body (s, k) = (s' ← f s k; Returns (s', k + step)).

Lemma rounds_left_le k : (bound - k) / step = 0 ↔ bound < k + step.
Proof.
  rewrite Nat.div_small_iff by lia. lia.
Qed.

Lemma rounds_left_succ k n :
  (bound - k) / step = S n →
  k + step ≤ bound ∧ (bound - (k + step)) / step = n.
Proof.
  intros Hn.
  assert (Hle : k + step ≤ bound).
  { destruct (decide (k + step ≤ bound)) as [|Hgt]; [done|].
    assert ((bound - k) / step = 0) as E by (apply rounds_left_le; lia).
    lia. }
  split; [done|].
  replace (bound - k) with (1 * step + (bound - (k + step))) in Hn by lia.
  rewrite Nat.div_add_l in Hn by lia. lia.
Qed.

(** With enough fuel the loop is [rounds] run [(bound - k) / step] times. *)
Lemma while_counter n : ∀ fuel s k,
  (bound - k) / step = n → n < fuel →
  while fuel cond body (s, k) =
    (s' ← rounds step f n s k; Returns (s', k + n * step)).
Proof.
  induction n as [|n IH]; intros fuel s k Hn Hfuel;
    (destruct fuel as [|fuel]; [lia|]); simpl; rewrite cond_spec.
  - apply rounds_left_le in Hn.
    destruct (Nat.leb_spec (k + step) bound); [lia|].
    by rewrite Nat.add_0_r.
  - apply rounds_left_succ in Hn as [Hle Hn].
    destruct (Nat.leb_spec (k + step) bound); [|lia].
    rewrite body_spec. destruct (f s k) as [s'| |]; simpl; [|done..].
    rewrite (IH fuel s' (k + step)) by lia.
    destruct (rounds step f n s' (k + step)); simpl; [|done..].
    do 2 f_equal. lia.
Qed.
End counter_loops.

(** A loop whose body hands back the state it was given never ends. *)
Lemma while_stuck {St : Type} (cond : St → bool) (body : St → outcome St) s :
  cond s = true → body s = Returns s →
  ∀ fuel, while fuel cond body s = OutOfFuel.
Proof.
  intros Hc Hb fuel. induction fuel as [|fuel IH]; [done|].
  simpl. by rewrite Hc, Hb.
Qed.

Lemma while_step {St : Type} (cond : St → bool) (body : St → outcome St)
    fuel s :
  cond s = true →
  while (S fuel) cond body s = body s ≫= while fuel cond body.
Proof. intros Hc. simpl. by rewrite Hc. Qed.

(** The same after one round that changes the state. *)
Lemma while_stuck_after {St : Type} (cond : St → bool)
    (body : St → outcome St) s0 s1 :
  cond s0 = true → body s0 = Returns s1 →
  cond s1 = true → body s1 = Returns s1 →
  ∀ fuel, while fuel cond body s0 = OutOfFuel.
Proof.
  intros Hc0 Hb0 Hc1 Hb1 [|fuel]; [done|].
  rewrite while_step, Hb0 by done. by apply while_stuck.
Qed.

(** Loop rule: an invariant indexed by the round carries through. *)
Lemma rounds_invariant {St : Type} (step : nat) (f : St → nat → outcome St)
    (P : nat → St → Prop) n : ∀ s j,
  P j s →
  (∀ j' s', j ≤ j' < j + n → P j' s' →
     ∃ s'', f s' (j' * step) = Returns s'' ∧ P (S j') s'') →
  ∃ s', rounds step f n s (j * step) = Returns s' ∧ P (j + n) s'.
Proof.
  induction n as [|n IH]; intros s j HP Hstep; simpl.
  - exists s. by rewrite Nat.add_0_r.
  - destruct (Hstep j s) as (s1 & Hf & HP1); [lia|done|].
    rewrite Hf. cbn [mbind outcome_bind].
    destruct (IH s1 (S j) HP1) as (s' & Hr & HP').
    { intros j' s2 Hj' HP2. apply Hstep; [lia|done]. }
    exists s'. split.
    + by replace (j * step + step) with (S j * step) by lia.
    + by replace (j + S n) with (S j + n) by lia.
Qed.

(** * The frame of [split_img] *)

Lemma copyMakeBorder_none {A : Type} (src : ndarray A) (v : A) :
  copyMakeBorder src 0 0 0 0 v = src.
Proof.
  destruct src as [h w l]. unfold copyMakeBorder. simpl.
  rewrite app_nil_r. f_equal; [lia..|].
  induction l as [|row l IH]; csimpl; [done|].
  by rewrite app_nil_r, IH.
Qed.

Lemma border_pos size n : 0 < size → n mod size ≠ 0 → 0 < border size n.
Proof.
  intros Hs Hr. unfold border.
  destruct (Nat.eqb_spec (n mod size) 0) as [|_]; [done|].
  pose proof (Nat.mod_upper_bound n size ltac:(lia)).
  apply Nat.div_str_pos. lia.
Qed.

Lemma pad_img_returns img size_x size_y :
  0 < size_x → 0 < size_y →
  pad_img img size_x size_y =
    Returns (padded img size_x size_y,
             shape0 (padded img size_x size_y),
             shape1 (padded img size_x size_y),
             border size_y (shape0 img), border size_x (shape1 img)).
Proof.
  intros Hx Hy. unfold pad_img, padded, border.
  destruct size_y as [|sy]; [lia|]. destruct size_x as [|sx]; [lia|].
  cbn [py_mod mbind outcome_bind].
  destruct (Nat.eqb_spec (shape0 img mod S sy) 0) as [E0|E0];
    destruct (Nat.eqb_spec (shape1 img mod S sx) 0) as [E1|E1];
    cbn [negb]; rewrite ?copyMakeBorder_none; cbn [shape0 shape1 copyMakeBorder];
    try done; f_equal;
    repeat match goal with |- (_, _) = (_, _) => f_equal end; lia.
Qed.

Lemma padded_shape0 img size_x size_y :
  shape0 (padded img size_x size_y) = shape0 img + 2 * border size_y (shape0 img).
Proof. unfold padded. simpl. lia. Qed.

Lemma padded_shape1 img size_x size_y :
  shape1 (padded img size_x size_y) = shape1 img + 2 * border size_x (shape1 img).
Proof. unfold padded. simpl. lia. Qed.

(** * The raster scan of [split_img] *)

Lemma rounds_append {A : Type} (step : nat) (g : nat → A) n : ∀ (l : list A) k,
  rounds step (λ l k, Returns (l ++ [g k])) n l k =
    Returns (l ++ ((λ j, g (k + j * step)) <$> seq 0 n)).
Proof.
  induction n as [|n IH]; intros l k; simpl.
  - by rewrite app_nil_r.
  - rewrite IH, <- app_assoc. simpl. rewrite Nat.add_0_r.
    do 3 f_equal. rewrite <- fmap_S_seq, <- list_fmap_compose.
    apply list_fmap_ext. intros _ j _. simpl. f_equal. lia.
Qed.

Lemma rounds_rows {A : Type} (step : nat) (g : nat → list A) n :
  ∀ (l : list A) k,
  rounds step (λ l k, Returns (l ++ g k)) n l k =
    Returns (l ++ concat ((λ j, g (k + j * step)) <$> seq 0 n)).
Proof.
  induction n as [|n IH]; intros l k; simpl.
  - by rewrite app_nil_r.
  - rewrite IH, <- app_assoc. simpl. rewrite Nat.add_0_r.
    do 4 f_equal. rewrite <- fmap_S_seq, <- list_fmap_compose.
    apply list_fmap_ext. intros _ j _. simpl. f_equal. lia.
Qed.

Lemma split_scan_returns fuel img size_x size_y max_x max_y :
  0 < size_x → 0 < size_y →
  max_x / size_x < fuel → max_y / size_y < fuel →
  split_scan fuel img size_x size_y max_x max_y =
    Returns (grid_windows img size_x size_y (max_x / size_x) (max_y / size_y)).
Proof.
  intros Hx Hy Hfx Hfy. unfold split_scan.
  pose (win := λ y x, getslice2 img y (y + size_y) x (x + size_x)).
  pose (row := λ l k, Returns (l ++ ((λ C, win k (C * size_x))
                                        <$> seq 0 (max_x / size_x)))
               : outcome (list (ndarray Z))).
  match goal with
  | |- while _ ?c ?b _ ≫= _ = _ =>
      assert (Hb : ∀ s k, b (s, k) = (s' ← row s k; Returns (s', k + size_y)))
  end.
  { intros parts curr_y. cbv beta iota.
    rewrite (while_counter size_x max_x (λ l k, Returns (l ++ [win curr_y k]))
               _ _ Hx (λ _ _, eq_refl) (λ _ _, eq_refl) (max_x / size_x));
      [|by rewrite Nat.sub_0_r|done].
    by rewrite rounds_append. }
  rewrite (while_counter size_y max_y row _ _ Hy (λ _ _, eq_refl) Hb
             (max_y / size_y)) by (by rewrite ?Nat.sub_0_r).
  unfold row. by rewrite rounds_rows.
Qed.

(** * Reading arrays pixel by pixel *)

Lemma wf_row {A : Type} (a : ndarray A) r row :
  wf a → rows a !! r = Some row → length row = shape1 a.
Proof.
  intros [_ Hw] Hr. by apply (proj1 (Forall_lookup _ _) Hw r row).
Qed.

Lemma wf_row_some {A : Type} (a : ndarray A) r :
  wf a → r < shape0 a → ∃ row, rows a !! r = Some row ∧ length row = shape1 a.
Proof.
  intros Hwf Hr. destruct (lookup_lt_is_Some_2 (rows a) r) as [row Hrow].
  { destruct Hwf as [-> _]. done. }
  exists row. split; [done|]. by eapply wf_row.
Qed.

Lemma pixel_is_some {A : Type} (a : ndarray A) r c :
  wf a → r < shape0 a → c < shape1 a → is_Some (pixel a r c).
Proof.
  intros Hwf Hr Hc. destruct (wf_row_some a r Hwf Hr) as (row & Hrow & Hlen).
  unfold pixel. rewrite Hrow. simpl. apply lookup_lt_is_Some_2. lia.
Qed.

Lemma pixel_outside {A : Type} (a : ndarray A) r c :
  wf a → shape0 a ≤ r ∨ shape1 a ≤ c → pixel a r c = None.
Proof.
  intros Hwf Hout. unfold pixel.
  destruct (rows a !! r) as [row|] eqn:Hrow; simpl; [|done].
  apply lookup_ge_None_2. rewrite (wf_row a r row Hwf Hrow).
  destruct Hout as [Hr|Hc]; [|done].
  apply lookup_lt_Some in Hrow. destruct Hwf as [Hlen _]. lia.
Qed.

(** Two well-formed arrays of one shape with the same pixels are equal. *)
Lemma ndarray_eq {A : Type} (a b : ndarray A) :
  wf a → wf b → shape0 a = shape0 b → shape1 a = shape1 b →
  (∀ r c, r < shape0 a → c < shape1 a → pixel a r c = pixel b r c) →
  a = b.
Proof.
  intros Ha Hb H0 H1 Hpx.
  destruct a as [ha wa la], b as [hb wb lb]. simpl in *. subst hb wb.
  f_equal. apply list_eq. intros r.
  destruct (decide (r < ha)) as [Hr|Hr].
  - destruct (wf_row_some _ r Ha Hr) as (ra & Hra & Hla).
    destruct (wf_row_some _ r Hb Hr) as (rb & Hrb & Hlb).
    simpl in *. rewrite Hra, Hrb. f_equal. apply list_eq. intros c.
    destruct (decide (c < wa)) as [Hc|Hc].
    + specialize (Hpx r c Hr Hc). unfold pixel in Hpx. simpl in Hpx.
      by rewrite Hra, Hrb in Hpx.
    + rewrite !lookup_ge_None_2 by lia. done.
  - destruct Ha as [Hla _], Hb as [Hlb _]. simpl in *.
    rewrite !lookup_ge_None_2 by lia. done.
Qed.

Lemma lookup_slice {A : Type} (l : list A) lo hi i :
  slice lo hi l !! i = if decide (i < hi - lo) then l !! (lo + i) else None.
Proof.
  unfold slice. rewrite lookup_take. case_decide; [|done]. apply lookup_drop.
Qed.

Lemma length_slice {A : Type} (l : list A) lo hi :
  length (slice lo hi l) = slice_len lo hi (length l).
Proof.
  unfold slice, slice_len. rewrite length_take, length_drop. lia.
Qed.

Lemma wf_full {A : Type} h w (v : A) : wf (full h w v).
Proof.
  split; simpl; [apply length_replicate|].
  apply Forall_replicate, length_replicate.
Qed.

Lemma pixel_full {A : Type} h w (v : A) r c :
  r < h → c < w → pixel (full h w v) r c = Some v.
Proof.
  intros Hr Hc. unfold pixel, full. simpl.
  rewrite lookup_replicate_2 by done. simpl. by apply lookup_replicate_2.
Qed.

Lemma wf_getslice2 {A : Type} (a : ndarray A) y0 y1 x0 x1 :
  wf a → wf (getslice2 a y0 y1 x0 x1).
Proof.
  intros [Hl Hw]. split; simpl.
  - by rewrite length_fmap, length_slice, Hl.
  - apply Forall_fmap, Forall_take, Forall_drop.
    eapply Forall_impl; [exact Hw|]. intros row Hrow. simpl in *.
    by rewrite length_slice, Hrow.
Qed.

Lemma pixel_getslice2 {A : Type} (a : ndarray A) y0 y1 x0 x1 r c :
  r < y1 - y0 → c < x1 - x0 →
  pixel (getslice2 a y0 y1 x0 x1) r c = pixel a (y0 + r) (x0 + c).
Proof.
  intros Hr Hc. unfold pixel, getslice2. simpl.
  rewrite list_lookup_fmap, lookup_slice. case_decide; [|lia].
  destruct (rows a !! (y0 + r)) as [row|]; simpl; [|done].
  rewrite lookup_slice. by case_decide; [|lia].
Qed.

Lemma wf_copyMakeBorder {A : Type} (src : ndarray A) t b l r v :
  wf src → wf (copyMakeBorder src t b l r v).
Proof.
  intros [Hl Hw]. split; simpl.
  - rewrite !length_app, !length_replicate, length_fmap. lia.
  - rewrite !Forall_app. split_and!.
    + apply Forall_replicate, length_replicate.
    + apply Forall_fmap. eapply Forall_impl; [exact Hw|]. intros row Hrow.
      simpl in *. rewrite !length_app, !length_replicate. lia.
    + apply Forall_replicate, length_replicate.
Qed.

Lemma pixel_copyMakeBorder {A : Type} (src : ndarray A) t b l r v i j :
  wf src → i < t + shape0 src + b → j < l + shape1 src + r →
  pixel (copyMakeBorder src t b l r v) i j =
    if (t <=? i) && (i <? t + shape0 src) && (l <=? j) && (j <? l + shape1 src)
    then pixel src (i - t) (j - l) else Some v.
Proof.
  intros Hwf Hi Hj. unfold pixel at 1. simpl.
  destruct (Nat.leb_spec t i) as [Hti|Hti]; simpl.
  - rewrite lookup_app_r by (rewrite length_replicate; lia).
    rewrite length_replicate.
    destruct (Nat.ltb_spec i (t + shape0 src)) as [Hih|Hih]; simpl.
    + destruct (wf_row_some src (i - t) Hwf ltac:(lia)) as (row & Hrow & Hlen).
      rewrite lookup_app_l by (rewrite length_fmap; destruct Hwf as [-> _]; lia).
      rewrite list_lookup_fmap, Hrow. simpl. unfold pixel. rewrite Hrow. simpl.
      destruct (Nat.leb_spec l j) as [Hlj|Hlj]; simpl.
      * rewrite lookup_app_r by (rewrite length_replicate; lia).
        rewrite length_replicate.
        destruct (Nat.ltb_spec j (l + shape1 src)) as [Hjw|Hjw].
        -- by rewrite lookup_app_l by lia.
        -- rewrite lookup_app_r by lia. apply lookup_replicate_2. lia.
      * rewrite lookup_app_l by (rewrite length_replicate; lia).
        by apply lookup_replicate_2.
    + rewrite lookup_app_r by (rewrite length_fmap; destruct Hwf as [-> _]; lia).
      rewrite length_fmap. destruct Hwf as [Hlen _]. rewrite Hlen.
      rewrite lookup_replicate_2 by lia. simpl. by apply lookup_replicate_2.
  - rewrite lookup_app_l by (rewrite length_replicate; lia).
    rewrite lookup_replicate_2 by lia. simpl. by apply lookup_replicate_2.
Qed.

Lemma wf_padded img size_x size_y : wf img → wf (padded img size_x size_y).
Proof. intros Hwf. by do 2 apply wf_copyMakeBorder. Qed.

(** The padded image is the original inside a white frame. *)
Lemma pixel_padded img size_x size_y r c :
  wf img →
  r < shape0 (padded img size_x size_y) →
  c < shape1 (padded img size_x size_y) →
  pixel (padded img size_x size_y) r c =
    if (border size_y (shape0 img) <=? r)
       && (r <? border size_y (shape0 img) + shape0 img)
       && (border size_x (shape1 img) <=? c)
       && (c <? border size_x (shape1 img) + shape1 img)
    then pixel img (r - border size_y (shape0 img))
                   (c - border size_x (shape1 img))
    else Some white.
Proof.
  intros Hwf Hr Hc. rewrite padded_shape0 in Hr. rewrite padded_shape1 in Hc.
  unfold padded.
  set (b0 := border size_y (shape0 img)) in *.
  set (b1 := border size_x (shape1 img)) in *.
  rewrite pixel_copyMakeBorder;
    [|by apply wf_copyMakeBorder|simpl; lia|simpl; lia].
  cbn [shape0 shape1 copyMakeBorder].
  destruct (Nat.leb_spec b1 c), (Nat.ltb_spec c (b1 + shape1 img));
    destruct (Nat.leb_spec b0 r), (Nat.ltb_spec r (b0 + shape0 img));
    repeat match goal with
    | |- context [?a <=? ?b] => destruct (Nat.leb_spec a b); try lia
    | |- context [?a <? ?b] => destruct (Nat.ltb_spec a b); try lia
    end; cbn [andb]; try done;
    rewrite pixel_copyMakeBorder by (done || lia);
    repeat match goal with
    | |- context [?a <=? ?b] => destruct (Nat.leb_spec a b); try lia
    | |- context [?a <? ?b] => destruct (Nat.ltb_spec a b); try lia
    end; cbn [andb]; try done.
  by rewrite !Nat.sub_0_r.
Qed.

(** * Arithmetic of the frame *)

Lemma twice_half_up x : 2 * ((x + 1) / 2) = x + x mod 2.
Proof.
  pose proof (Nat.div_mod_eq x 2). pose proof (Nat.div_mod_eq (x + 1) 2).
  pose proof (Nat.mod_upper_bound x 2). pose proof (Nat.mod_upper_bound (x + 1) 2).
  lia.
Qed.

Lemma border_zero size n : n mod size = 0 → border size n = 0.
Proof. intros E. unfold border. by rewrite E. Qed.

Lemma border_twice size n :
  n mod size ≠ 0 →
  2 * border size n = size - n mod size + (size - n mod size) mod 2.
Proof.
  intros E. unfold border.
  destruct (Nat.eqb_spec (n mod size) 0); [done|]. apply twice_half_up.
Qed.

(** Quotient and remainder of a padded length by the patch size. *)
Lemma padded_div_mod size n :
  0 < size →
  (n + 2 * border size n) / size
    = (if n mod size =? 0 then n / size else n / size + 1)
  ∧ (n + 2 * border size n) mod size
    = (if n mod size =? 0 then 0 else (size - n mod size) mod 2).
Proof.
  intros Hs. destruct (Nat.eqb_spec (n mod size) 0) as [E|E].
  - rewrite (border_zero _ _ E), Nat.add_0_r. done.
  - pose proof (Nat.mod_upper_bound n size ltac:(lia)) as Hr.
    pose proof (Nat.mod_upper_bound (size - n mod size) 2 ltac:(lia)) as Hm.
    pose proof (Nat.div_mod_eq n size) as Hn.
    assert (n + 2 * border size n
            = size * (n / size + 1) + (size - n mod size) mod 2) as Heq.
    { rewrite (border_twice _ _ E). lia. }
    split; symmetry.
    + eapply Nat.div_unique; [|exact Heq]. lia.
    + eapply Nat.mod_unique; [|exact Heq]. lia.
Qed.

Lemma padded_covers size n :
  0 < size → n mod size ≠ 0 → size ≤ n + 2 * border size n.
Proof.
  intros Hs E. rewrite (border_twice _ _ E).
  pose proof (Nat.mod_upper_bound n size ltac:(lia)).
  pose proof (Nat.Div0.mod_le n size). lia.
Qed.

Lemma padded_div_fuel size n : 0 < size → (n + 2 * border size n) / size < n + 2.
Proof.
  intros Hs. destruct (padded_div_mod size n Hs) as [-> _].
  pose proof (Nat.Div0.div_le_upper_bound n size n) as Hle.
  assert (n / size ≤ n) by (apply Hle; nia).
  destruct (n mod size =? 0); lia.
Qed.

Lemma split_img_returns fuel img size_x size_y :
  0 < size_x → 0 < size_y → split_fuel img ≤ fuel →
  split_img fuel img size_x size_y =
    Returns (grid_windows (padded img size_x size_y) size_x size_y
               (shape1 (padded img size_x size_y) / size_x)
               (shape0 (padded img size_x size_y) / size_y),
             border size_y (shape0 img), border size_x (shape1 img)).
Proof.
  intros Hx Hy Hfuel. unfold split_img, split_fuel in *.
  rewrite pad_img_returns by done. cbn [mbind outcome_bind].
  rewrite split_scan_returns; [done|done|done|..].
  - rewrite padded_shape1. pose proof (padded_div_fuel size_x (shape1 img) Hx). lia.
  - rewrite padded_shape0. pose proof (padded_div_fuel size_y (shape0 img) Hy). lia.
Qed.

(** * Positions in a raster scan *)

Lemma length_grid {A : Type} (g : nat → nat → A) nx ny :
  length (concat ((λ R, g R <$> seq 0 nx) <$> seq 0 ny)) = ny * nx.
Proof.
  induction ny as [|ny IH]; [done|].
  rewrite seq_S, fmap_app, concat_app, length_app, IH. simpl.
  rewrite length_app, length_fmap, length_seq. simpl. lia.
Qed.

Lemma lookup_grid {A : Type} (g : nat → nat → A) nx ny i :
  i < ny * nx →
  concat ((λ R, g R <$> seq 0 nx) <$> seq 0 ny) !! i
    = Some (g (i / nx) (i mod nx)).
Proof.
  induction ny as [|ny IH]; intros Hi; [lia|].
  assert (0 < nx) as Hnx by (destruct nx; lia).
  rewrite seq_S, fmap_app, concat_app. simpl. rewrite app_nil_r.
  destruct (decide (i < ny * nx)) as [Hlt|Hge].
  - rewrite lookup_app_l by (by rewrite length_grid). by apply IH.
  - rewrite lookup_app_r by (rewrite length_grid; lia). rewrite length_grid.
    assert (i = nx * ny + (i - ny * nx)) as Hdec by lia.
    assert (i - ny * nx < nx) as Hlt by lia.
    rewrite <- (Nat.div_unique i nx ny (i - ny * nx) Hlt Hdec).
    rewrite <- (Nat.mod_unique i nx ny (i - ny * nx) Hlt Hdec).
    rewrite list_lookup_fmap, lookup_seq_lt by done. done.
Qed.

Lemma length_grid_windows img size_x size_y nx ny :
  length (grid_windows img size_x size_y nx ny) = ny * nx.
Proof. apply (length_grid (λ R C, getslice2 img _ _ _ _)). Qed.

Lemma lookup_grid_windows img size_x size_y nx ny i :
  i < ny * nx →
  grid_windows img size_x size_y nx ny !! i =
    Some (getslice2 img (i / nx * size_y) (i / nx * size_y + size_y)
                        (i mod nx * size_x) (i mod nx * size_x + size_x)).
Proof.
  intros Hi.
  apply (lookup_grid (λ R C, getslice2 img (R * size_y) (R * size_y + size_y)
                                           (C * size_x) (C * size_x + size_x))).
  done.
Qed.

(** [ceil(a / 2)] for an integer [a], as the rational ceiling. *)
Lemma Qceiling_half (a : Z) : Qceiling (inject_Z a / 2) = ((a + 1) / 2)%Z.
Proof.
  unfold Qceiling, Qfloor, Qdiv, Qmult, Qinv, Qopp, inject_Z. simpl.
  rewrite Z.mul_1_r. Z.div_mod_to_equations. lia.
Qed.

Lemma border_ceiling size n :
  0 < size → n mod size ≠ 0 →
  Z.of_nat (border size n)
    = Qceiling (inject_Z (Z.of_nat size - Z.of_nat (n mod size)) / 2).
Proof.
  intros Hs E. rewrite Qceiling_half. unfold border.
  destruct (Nat.eqb_spec (n mod size) 0); [done|].
  pose proof (Nat.mod_upper_bound n size ltac:(lia)).
  rewrite Nat2Z.inj_div. f_equal. lia.
Qed.

(** A whole window of the scan lies inside the scanned length. *)
Lemma slice_len_window k size n cnt :
  k < cnt → size * cnt ≤ n → slice_len (k * size) (k * size + size) n = size.
Proof.
  intros Hk Hn. unfold slice_len.
  assert (k * size + size ≤ n) by nia. lia.
Qed.

(** * Claims about [split_img] *)

(** C7, as the code has it: tiling any image of height 130 and width 130
    with patches of 128 by 128 returns [border_y = border_x = 63]
    ([(128 - 130 % 128 + 1) // 2]), and not 1. *)
Theorem split_img_130_borders (img : ndarray Z) (fuel : nat) :
  shape0 img = 130 → shape1 img = 130 → split_fuel img ≤ fuel →
  ∃ parts, split_img fuel img 128 128 = Returns (parts, 63, 63).
Proof.
  intros H0 H1 Hfuel. eexists.
  rewrite split_img_returns by (done || lia). by rewrite H0, H1.
Qed.

Lemma split_img_130_borders_witness :
  ∃ parts, split_img 262 (full 130 130 0%Z) 128 128 = Returns (parts, 63, 63).
Proof.
  apply (split_img_130_borders (full 130 130 0%Z) 262);
    [reflexivity | reflexivity | unfold split_fuel; simpl; lia].
Defined.

(** C7, counterexample: on the all-black image of 130 by 130 the borders
    returned for patches of 128 by 128 are 63 and 63, so they are not 1. *)
Lemma split_img_130_borders_not_1 :
  ∃ parts border_y border_x,
    split_img 262 (full 130 130 0%Z) 128 128
      = Returns (parts, border_y, border_x)
    ∧ border_y = 63 ∧ border_x = 63 ∧ ¬ (border_y = 1 ∧ border_x = 1).
Proof.
  eexists _, _, _. split.
  - apply split_img_returns; unfold split_fuel; simpl; lia.
  - vm_compute. split_and!; [done|done|]. intros [? _]. lia.
Qed.

(** C2, as the code has it: after the frame is added the padded height
    leaves remainder 0 or 1 modulo [size_y]: remainder 0 when the height was
    already a multiple or when [size_y - max_y % size_y] is even, and
    remainder 1 when it is odd; likewise the padded width modulo [size_x]. *)
Theorem padded_remainders (img : ndarray Z) (size_x size_y : nat) :
  0 < size_x → 0 < size_y →
  ∃ p max_y max_x border_y border_x,
    pad_img img size_x size_y = Returns (p, max_y, max_x, border_y, border_x)
    ∧ max_y = shape0 p ∧ max_x = shape1 p
    ∧ max_y mod size_y
        = (if shape0 img mod size_y =? 0 then 0
           else (size_y - shape0 img mod size_y) mod 2)
    ∧ max_x mod size_x
        = (if shape1 img mod size_x =? 0 then 0
           else (size_x - shape1 img mod size_x) mod 2).
Proof.
  intros Hx Hy. eexists _, _, _, _, _.
  split; [by apply pad_img_returns|]. split_and!; [done|done|..].
  - rewrite padded_shape0. by apply padded_div_mod.
  - rewrite padded_shape1. by apply padded_div_mod.
Qed.

Lemma padded_remainders_witness :
  ∃ p max_y max_x border_y border_x,
    pad_img (full 3 4 0%Z) 2 2 = Returns (p, max_y, max_x, border_y, border_x)
    ∧ max_y = shape0 p ∧ max_x = shape1 p
    ∧ max_y mod 2 = 1 ∧ max_x mod 2 = 0.
Proof.
  apply (padded_remainders (full 3 4 0%Z) 2 2); lia.
Defined.

(** C2, counterexample: an image of 3 by 3 tiled with patches of 2 by 2 is
    padded to 5 by 5, and 5 is not a multiple of 2. *)
Lemma padded_not_multiple_3x3 :
  ∃ p max_y max_x border_y border_x,
    pad_img (full 3 3 0%Z) 2 2 = Returns (p, max_y, max_x, border_y, border_x)
    ∧ shape0 p = 5 ∧ shape1 p = 5
    ∧ shape0 p mod 2 ≠ 0 ∧ shape1 p mod 2 ≠ 0.
Proof.
  eexists _, _, _, _, _. split; [reflexivity|]. by vm_compute.
Qed.

(** C3, as the code has it: the number of patches is
    [floor(padded_height / size_y) * floor(padded_width / size_x)]. *)
Theorem split_img_patch_count (img : ndarray Z) (size_x size_y fuel : nat) :
  0 < size_x → 0 < size_y → split_fuel img ≤ fuel →
  ∃ parts border_y border_x p max_y max_x,
    split_img fuel img size_x size_y = Returns (parts, border_y, border_x)
    ∧ pad_img img size_x size_y = Returns (p, max_y, max_x, border_y, border_x)
    ∧ max_y = shape0 p ∧ max_x = shape1 p
    ∧ length parts = (max_y / size_y) * (max_x / size_x).
Proof.
  intros Hx Hy Hfuel. eexists _, _, _, _, _, _.
  split; [by apply split_img_returns|].
  split; [by apply pad_img_returns|].
  split_and!; [done|done|]. apply length_grid_windows.
Qed.

Lemma split_img_patch_count_witness :
  ∃ parts border_y border_x p max_y max_x,
    split_img 8 (full 3 3 0%Z) 2 2 = Returns (parts, border_y, border_x)
    ∧ pad_img (full 3 3 0%Z) 2 2 = Returns (p, max_y, max_x, border_y, border_x)
    ∧ max_y = shape0 p ∧ max_x = shape1 p
    ∧ length parts = (max_y / 2) * (max_x / 2).
Proof.
  apply (split_img_patch_count (full 3 3 0%Z) 2 2 8);
    [lia | lia | unfold split_fuel; simpl; lia].
Defined.

(** C3, counterexample: an image of 3 by 3 tiled with patches of 2 by 2 is
    padded to 5 by 5 and yields 4 patches, whereas
    [ceil(5 / 2) * ceil(5 / 2)] is 9. *)
Lemma patch_count_not_ceil_3x3 :
  ∃ parts border_y border_x p max_y max_x,
    split_img 8 (full 3 3 0%Z) 2 2 = Returns (parts, border_y, border_x)
    ∧ pad_img (full 3 3 0%Z) 2 2 = Returns (p, max_y, max_x, border_y, border_x)
    ∧ max_y = shape0 p ∧ max_x = shape1 p
    ∧ Z.of_nat (length parts) = 4%Z
    ∧ (Qceiling (inject_Z (Z.of_nat max_y) / inject_Z 2)
       * Qceiling (inject_Z (Z.of_nat max_x) / inject_Z 2))%Z = 9%Z.
Proof.
  eexists _, _, _, _, _, _. split; [reflexivity|]. split; [reflexivity|].
  by vm_compute.
Qed.

(** C5: for every image of height [max_y] and width [max_x], [split_img]
    returns [border_y = ceil((size_y - max_y % size_y) / 2)] when
    [max_y % size_y != 0] and 0 otherwise, and [border_x] likewise; the
    padded image has [border_y] more rows above and as many below,
    [border_x] more columns on the left and as many on the right, holds the
    original image in the middle, and is white (255) everywhere else. *)
Theorem split_img_borders_and_frame
    (img : ndarray Z) (size_x size_y fuel : nat) :
  wf img → 0 < size_x → 0 < size_y → split_fuel img ≤ fuel →
  ∃ parts border_y border_x p,
    split_img fuel img size_x size_y = Returns (parts, border_y, border_x)
    ∧ pad_img img size_x size_y
        = Returns (p, shape0 p, shape1 p, border_y, border_x)
    ∧ Z.of_nat border_y
        = (if shape0 img mod size_y =? 0 then 0%Z
           else Qceiling (inject_Z (Z.of_nat size_y
                                    - Z.of_nat (shape0 img mod size_y)) / 2))
    ∧ Z.of_nat border_x
        = (if shape1 img mod size_x =? 0 then 0%Z
           else Qceiling (inject_Z (Z.of_nat size_x
                                    - Z.of_nat (shape1 img mod size_x)) / 2))
    ∧ shape0 p = border_y + shape0 img + border_y
    ∧ shape1 p = border_x + shape1 img + border_x
    ∧ ∀ r c, r < shape0 p → c < shape1 p →
        pixel p r c =
          if (border_y <=? r) && (r <? border_y + shape0 img)
             && (border_x <=? c) && (c <? border_x + shape1 img)
          then pixel img (r - border_y) (c - border_x)
          else Some 255%Z.
Proof.
  intros Hwf Hx Hy Hfuel.
  exists (grid_windows (padded img size_x size_y) size_x size_y
            (shape1 (padded img size_x size_y) / size_x)
            (shape0 (padded img size_x size_y) / size_y)),
         (border size_y (shape0 img)), (border size_x (shape1 img)),
         (padded img size_x size_y).
  split; [by apply split_img_returns|].
  split; [by apply pad_img_returns|].
  split_and!.
  - destruct (Nat.eqb_spec (shape0 img mod size_y) 0) as [E|E].
    + by rewrite (border_zero _ _ E).
    + by apply border_ceiling.
  - destruct (Nat.eqb_spec (shape1 img mod size_x) 0) as [E|E].
    + by rewrite (border_zero _ _ E).
    + by apply border_ceiling.
  - rewrite padded_shape0. lia.
  - rewrite padded_shape1. lia.
  - intros r c Hr Hc. by apply pixel_padded.
Qed.

Lemma split_img_borders_and_frame_witness :
  ∃ parts border_y border_x p,
    split_img 9 (full 3 4 7%Z) 3 2 = Returns (parts, border_y, border_x)
    ∧ pad_img (full 3 4 7%Z) 3 2
        = Returns (p, shape0 p, shape1 p, border_y, border_x)
    ∧ Z.of_nat border_y = 1%Z
    ∧ Z.of_nat border_x = 1%Z
    ∧ shape0 p = border_y + 3 + border_y
    ∧ shape1 p = border_x + 4 + border_x
    ∧ ∀ r c, r < shape0 p → c < shape1 p →
        pixel p r c =
          if (border_y <=? r) && (r <? border_y + 3)
             && (border_x <=? c) && (c <? border_x + 4)
          then pixel (full 3 4 7%Z) (r - border_y) (c - border_x)
          else Some 255%Z.
Proof.
  apply (split_img_borders_and_frame (full 3 4 7%Z) 3 2 9);
    [split; [reflexivity | repeat constructor]
    | lia | lia | unfold split_fuel; simpl; lia].
Defined.

(** C6: [split_img] lists its patches in row-major order. With
    [patches_per_row] the number of windows across the padded image and
    [patches_per_col] the number of windows down it, the list holds
    [patches_per_col * patches_per_row] patches: every cell [(gy, gx)] of
    the grid has its patch, at index [gy * patches_per_row + gx], and that
    patch is the window whose top-left corner is at row [gy * size_y] and
    column [gx * size_x]. Read by index, the patch at index [i] is the
    window of the padded image whose top-left corner is at row
    [(i div patches_per_row) * size_y] and column
    [(i mod patches_per_row) * size_x]; it has [size_y] rows and [size_x]
    columns, and its pixel [(r, c)] is the pixel of the padded image [r]
    rows below and [c] columns right of that corner. *)
Theorem split_img_row_major (img : ndarray Z) (size_x size_y fuel : nat) :
  0 < size_x → 0 < size_y → split_fuel img ≤ fuel →
  ∃ parts border_y border_x p max_y max_x,
    split_img fuel img size_x size_y = Returns (parts, border_y, border_x)
    ∧ pad_img img size_x size_y = Returns (p, max_y, max_x, border_y, border_x)
    ∧ length parts = shape0 p / size_y * (shape1 p / size_x)
    ∧ (∀ gy gx, gy < shape0 p / size_y → gx < shape1 p / size_x →
         parts !! (gy * (shape1 p / size_x) + gx)
         = Some (getslice2 p (gy * size_y) (gy * size_y + size_y)
                             (gx * size_x) (gx * size_x + size_x)))
    ∧ ∀ i, i < length parts →
        let patches_per_row := shape1 p / size_x in
        let y := i / patches_per_row * size_y in
        let x := i mod patches_per_row * size_x in
        ∃ patch,
          parts !! i = Some patch
          ∧ patch = getslice2 p y (y + size_y) x (x + size_x)
          ∧ shape0 patch = size_y ∧ shape1 patch = size_x
          ∧ ∀ r c, r < size_y → c < size_x →
              pixel patch r c = pixel p (y + r) (x + c).
Proof.
  intros Hx Hy Hfuel. eexists _, _, _, _, _, _.
  split; [by apply split_img_returns|].
  split; [by apply pad_img_returns|].
  set (p := padded img size_x size_y).
  split; [by apply length_grid_windows|].
  split.
  { intros gy gx Hgy Hgx.
    set (nx := shape1 p / size_x) in *.
    assert (gy * nx + gx < shape0 p / size_y * nx) as Hlt by nia.
    assert (0 < nx) as Hnx by lia.
    rewrite (lookup_grid_windows _ _ _ _ _ _ Hlt).
    assert ((gy * nx + gx) / nx = gy) as ->.
    { rewrite Nat.div_add_l, Nat.div_small by lia. lia. }
    assert ((gy * nx + gx) mod nx = gx) as ->.
    { rewrite Nat.add_comm, Nat.Div0.mod_add. by apply Nat.mod_small. }
    done. }
  intros i Hi. rewrite length_grid_windows in Hi. cbv zeta.
  set (nx := shape1 p / size_x) in *. set (ny := shape0 p / size_y) in *.
  assert (0 < nx) as Hnx by (destruct nx; lia).
  pose proof (Nat.mod_upper_bound i nx ltac:(lia)) as Hcol.
  assert (i / nx < ny) as Hrow by (apply Nat.Div0.div_lt_upper_bound; lia).
  pose proof (Nat.Div0.mul_div_le (shape1 p) size_x) as Hw. fold nx in Hw.
  pose proof (Nat.Div0.mul_div_le (shape0 p) size_y) as Hh. fold ny in Hh.
  eexists. split; [by apply lookup_grid_windows|]. split; [done|].
  split_and!.
  - by apply slice_len_window with (cnt := ny).
  - by apply slice_len_window with (cnt := nx).
  - intros r c Hr Hc. apply pixel_getslice2; lia.
Qed.

Lemma split_img_row_major_witness :
  ∃ parts border_y border_x p max_y max_x,
    split_img 8 (full 3 3 7%Z) 2 2 = Returns (parts, border_y, border_x)
    ∧ pad_img (full 3 3 7%Z) 2 2 = Returns (p, max_y, max_x, border_y, border_x)
    ∧ length parts = shape0 p / 2 * (shape1 p / 2)
    ∧ (∀ gy gx, gy < shape0 p / 2 → gx < shape1 p / 2 →
         parts !! (gy * (shape1 p / 2) + gx)
         = Some (getslice2 p (gy * 2) (gy * 2 + 2) (gx * 2) (gx * 2 + 2)))
    ∧ ∀ i, i < length parts →
        let patches_per_row := shape1 p / 2 in
        let y := i / patches_per_row * 2 in
        let x := i mod patches_per_row * 2 in
        ∃ patch,
          parts !! i = Some patch
          ∧ patch = getslice2 p y (y + 2) x (x + 2)
          ∧ shape0 patch = 2 ∧ shape1 patch = 2
          ∧ ∀ r c, r < 2 → c < 2 →
              pixel patch r c = pixel p (y + r) (x + c).
Proof.
  apply (split_img_row_major (full 3 3 7%Z) 2 2 8);
    [lia | lia | unfold split_fuel; simpl; lia].
Defined.

(** * Storing a patch on the canvas *)

Section setslice.
Context {T : Type} `{AsFloat T}.

Lemma setslice2_shape (img img' : ndarray float) y0 y1 x0 x1 (v : ndarray T) :
  setslice2 img y0 y1 x0 x1 v = Returns img' →
  shape0 img' = shape0 img ∧ shape1 img' = shape1 img.
Proof.
  unfold setslice2. case_match; [|done]. intros [= <-]. done.
Qed.

Lemma setslice2_wf (img img' : ndarray float) y0 y1 x0 x1 (v : ndarray T) :
  wf img → setslice2 img y0 y1 x0 x1 v = Returns img' → wf img'.
Proof.
  intros [Hl Hw]. unfold setslice2. case_match; [|done]. intros [= <-].
  split; simpl.
  - by rewrite length_imap.
  - apply Forall_lookup. intros r row Hrow.
    rewrite list_lookup_imap in Hrow.
    destruct (rows img !! r) as [old|] eqn:Hold; [|done].
    simpl in Hrow. injection Hrow as <-.
    pose proof (proj1 (Forall_lookup _ _) Hw r old Hold) as Hlen.
    simpl in Hlen. case_match; [|done]. by rewrite length_imap.
Qed.

(** After a store that succeeds, a position inside the window holds the
    stored value and any other position is unchanged. *)
Lemma pixel_setslice2 (img img' : ndarray float) y0 y1 x0 x1
    (v : ndarray T) r c :
  setslice2 img y0 y1 x0 x1 v = Returns img' →
  pixel img' r c =
    if (y0 <=? r) && (r <? y1) && (x0 <=? c) && (c <? x1) then
      old ← pixel img r c;
      Some match pixel v (if shape0 v =? 1 then 0 else r - y0)
                         (if shape1 v =? 1 then 0 else c - x0) with
           | Some p => as_float p
           | None => old
           end
    else pixel img r c.
Proof.
  unfold setslice2. case_match; [|done]. intros [= <-].
  unfold pixel. simpl. rewrite list_lookup_imap.
  destruct (rows img !! r) as [row|]; simpl.
  - destruct ((y0 <=? r) && (r <? y1)); simpl; [|done].
    rewrite list_lookup_imap.
    destruct (row !! c) as [old|]; simpl;
      by destruct ((x0 <=? c) && (c <? x1)).
  - by destruct ((y0 <=? r) && (r <? y1) && (x0 <=? c) && (c <? x1)).
Qed.
End setslice.

(** * The scan of [combine_imgs] *)

Lemma window_iff size k r :
  0 < size → (k * size <= r ∧ r < k * size + size) ↔ r / size = k.
Proof.
  intros Hs. split.
  - intros [Hlo Hhi]. symmetry.
    apply (Nat.div_unique r size k (r - k * size)); lia.
  - intros <-. pose proof (Nat.div_mod_eq r size).
    pose proof (Nat.mod_upper_bound r size ltac:(lia)). lia.
Qed.

Lemma mod_window size r : r mod size = r - r / size * size.
Proof. pose proof (Nat.div_mod_eq r size). lia. Qed.

Lemma cell_index_inj ax R C R' C' :
  C < ax → C' < ax → R * ax + C = R' * ax + C' → R = R' ∧ C = C'.
Proof.
  intros HC HC' Heq.
  assert (R = R') as ->.
  { rewrite (Nat.div_unique (R * ax + C) ax R C) by lia.
    rewrite (Nat.div_unique (R * ax + C) ax R' C') at 1 by lia. done. }
  split; [done|lia].
Qed.

(** The store into window [k] of an axis succeeds exactly for the first
    [takers] windows. *)
Lemma can_broadcast_window size canvas bound k :
  0 < size → canvas ≤ bound → k < bound / size →
  can_broadcast size (slice_len (k * size) (k * size + size) canvas)
    = (k <? takers size canvas bound).
Proof.
  intros Hs Hcb Hk. unfold can_broadcast, takers.
  destruct (Nat.eqb_spec size 1) as [->|Hne].
  - rewrite orb_true_r. symmetry. by apply Nat.ltb_lt.
  - rewrite orb_false_r. unfold slice_len.
    destruct (Nat.ltb_spec k (canvas / size)) as [Hlt|Hge].
    + apply Nat.eqb_eq.
      pose proof (Nat.Div0.mul_div_le canvas size).
      assert (k * size + size ≤ canvas) by nia. lia.
    + apply Nat.eqb_neq.
      assert (canvas < k * size + size).
      { destruct (decide (canvas < k * size + size)) as [|Hn]; [done|].
        assert (k + 1 ≤ canvas / size); [|lia].
        apply Nat.div_le_lower_bound; lia. }
      lia.
Qed.

Lemma py_getitem_nat {A : Type} (l : list A) (i : nat) :
  py_getitem l (Z.of_nat i) =
    match l !! i with Some a => Returns a | None => Raises IndexError end.
Proof.
  unfold py_getitem.
  destruct (Z.ltb_spec (Z.of_nat i) 0) as [|_]; [lia|].
  destruct (Z.ltb_spec (Z.of_nat i) 0) as [|_]; [lia|].
  by rewrite Nat2Z.id.
Qed.

Lemma takers_le size canvas bound :
  canvas ≤ bound → takers size canvas bound ≤ bound / size.
Proof.
  intros Hle. unfold takers. destruct (size =? 1); [done|].
  by apply Nat.Div0.div_le_mono.
Qed.

Lemma patch_pixel {T : Type} (p : ndarray T) size_y size_x r c :
  0 < size_y → 0 < size_x →
  wf p → shape0 p = size_y → shape1 p = size_x →
  is_Some (pixel p (r mod size_y) (c mod size_x)).
Proof.
  intros Hy Hx Hwf H0 H1. apply pixel_is_some; [done|..].
  - rewrite H0. apply Nat.mod_upper_bound. lia.
  - rewrite H1. apply Nat.mod_upper_bound. lia.
Qed.

Section stitch_scan.
Context {T : Type} `{AsFloat T}.
Variables (imgs : list (ndarray T)).
Variables (size_y size_x h w bound_y bound_x : nat).
Hypothesis patches_ok :
  Forall (λ p, wf p ∧ shape0 p = size_y ∧ shape1 p = size_x) imgs.
Hypothesis size_y_pos : 0 < size_y.
Hypothesis size_x_pos : 0 < size_x.
Hypothesis bound_y_ge : h ≤ bound_y.
Hypothesis bound_x_ge : w ≤ bound_x.

Let ay := takers size_y h bound_y.
Let ax := takers size_x w bound_x.
Local Abbreviation sto := (store imgs size_y size_x).
Local Abbreviation inv := (scan_inv imgs size_y size_x h w bound_y bound_x).

Lemma taken_before_succ R C :
  taken_before ay ax R (S C)
    = taken_before ay ax R C + (if (R <? ay) && (C <? ax) then 1 else 0).
Proof.
  unfold taken_before. generalize (R `min` ay * ax). intros q.
  destruct (Nat.ltb_spec R ay), (Nat.ltb_spec C ax); cbn [andb]; lia.
Qed.

Lemma taken_before_row R :
  ax ≤ bound_x / size_x →
  taken_before ay ax R (bound_x / size_x) = taken_before ay ax (S R) 0.
Proof.
  intros Hax. unfold taken_before.
  rewrite (Nat.min_r _ ax Hax), Nat.min_0_l.
  destruct (Nat.ltb_spec R ay), (Nat.ltb_spec (S R) ay);
    repeat first [rewrite (Nat.min_l R ay) by lia
                 |rewrite (Nat.min_r R ay) by lia
                 |rewrite (Nat.min_l (S R) ay) by lia
                 |rewrite (Nat.min_r (S R) ay) by lia]; lia.
Qed.

Lemma stitched_skip k r c :
  patch_index size_y size_x ay ax r c ≠ Some k →
  stitched imgs size_y size_x ay ax (S k) r c
    = stitched imgs size_y size_x ay ax k r c.
Proof.
  intros Hne. unfold stitched.
  destruct (patch_index size_y size_x ay ax r c) as [j|]; [|done].
  assert (j ≠ k) by congruence.
  destruct (Nat.ltb_spec j (S k)), (Nat.ltb_spec j k); (done || lia).
Qed.

Lemma store_step R C s :
  R < bound_y / size_y → C < bound_x / size_x →
  inv R C s →
  ∃ s', sto (R * size_y) s (C * size_x) = Returns s' ∧ inv R (S C) s'.
Proof.
  intros HR HC. destruct s as [img i].
  unfold scan_inv. cbv zeta. fold ay ax.
  intros (Hwf & H0 & H1 & Hi & Hpx). simpl in Hwf, H0, H1, Hi, Hpx.
  unfold store. cbn [fst snd]. rewrite taken_before_succ.
  set (m := taken_before ay ax R C) in *. subst i.
  rewrite py_getitem_nat.
  destruct (decide (m < length imgs)) as [Hm|Hm].
  - rewrite Nat.min_l in * by lia.
    destruct (lookup_lt_is_Some_2 imgs m Hm) as [v Hv]. rewrite Hv.
    destruct (proj1 (Forall_lookup _ _) patches_ok m v Hv) as (Hvwf & Hv0 & Hv1).
    cbn [mbind outcome_bind].
    destruct ((R <? ay) && (C <? ax)) eqn:Htake.
    + (* the window takes the patch *)
      apply andb_prop in Htake as [HRa HCa].
      apply Nat.ltb_lt in HRa, HCa.
      assert (m = R * ax + C) as Hmeq.
      { unfold m, taken_before.
        destruct (Nat.ltb_spec R ay); [|lia]. lia. }
      destruct (setslice2 img (R * size_y) (R * size_y + size_y)
                  (C * size_x) (C * size_x + size_x) v) as [img'| |] eqn:Hset.
      2,3: exfalso; unfold setslice2 in Hset;
           rewrite H0, H1, Hv0, Hv1 in Hset;
           rewrite (can_broadcast_window size_y h bound_y R) in Hset by done;
           rewrite (can_broadcast_window size_x w bound_x C) in Hset by done;
           fold ay ax in Hset;
           destruct (Nat.ltb_spec R ay); [|lia];
           destruct (Nat.ltb_spec C ax); [|lia]; done.
      destruct (setslice2_shape _ _ _ _ _ _ _ Hset) as [Hs0 Hs1].
      pose proof (setslice2_wf _ _ _ _ _ _ _ Hwf Hset) as Hwf'.
      cbn [try_except mbind outcome_bind]. eexists. split; [done|].
      cbn [fst snd]. rewrite Nat.min_l by lia.
      split_and!; [done|lia|lia|lia|].
      intros r c Hr Hc. rewrite (pixel_setslice2 _ _ _ _ _ _ _ _ _ Hset).
      rewrite (Hpx r c Hr Hc). cbn [mbind option_bind].
      destruct ((R * size_y <=? r) && (r <? R * size_y + size_y)
                && (C * size_x <=? c) && (c <? C * size_x + size_x)) eqn:Hwin.
      * rewrite !andb_true_iff, !Nat.leb_le, !Nat.ltb_lt in Hwin.
        destruct Hwin as [[[Hy0 Hy1] Hx0] Hx1].
        assert (r / size_y = R) as HrR by (by apply window_iff).
        assert (c / size_x = C) as HcC by (by apply window_iff).
        assert ((if shape0 v =? 1 then 0 else r - R * size_y) = r mod size_y) as ->.
        { rewrite Hv0, mod_window, HrR.
          destruct (Nat.eqb_spec size_y 1) as [->|]; [lia|done]. }
        assert ((if shape1 v =? 1 then 0 else c - C * size_x) = c mod size_x) as ->.
        { rewrite Hv1, mod_window, HcC.
          destruct (Nat.eqb_spec size_x 1) as [->|]; [lia|done]. }
        destruct (patch_pixel v size_y size_x r c size_y_pos size_x_pos Hvwf Hv0 Hv1)
          as [px Hpx'].
        rewrite Hpx'. f_equal. unfold stitched, patch_index.
        rewrite HrR, HcC.
        destruct (Nat.ltb_spec R ay); [|lia].
        destruct (Nat.ltb_spec C ax); [|lia]. cbn [andb].
        rewrite <- Hmeq. destruct (Nat.ltb_spec m (m + 1)); [|lia].
        rewrite Hv. cbn [mbind option_bind]. by rewrite Hpx'.
      * f_equal. rewrite Nat.add_1_r. symmetry. apply stitched_skip.
        unfold patch_index. intros Hidx.
        destruct ((r / size_y <? ay) && (c / size_x <? ax)) eqn:Hin; [|done].
        apply andb_prop in Hin as [Hin0 Hin1].
        apply Nat.ltb_lt in Hin0, Hin1. injection Hidx as Hidx.
        rewrite Hmeq in Hidx.
        apply cell_index_inj in Hidx as [Hr' Hc']; [|done..].
        apply window_iff in Hr' as [? ?]; [|done].
        apply window_iff in Hc' as [? ?]; [|done].
        rewrite !andb_false_iff in Hwin.
        rewrite !Nat.leb_gt, !Nat.ltb_ge in Hwin. lia.
    + (* the window refuses the patch: [ValueError], caught *)
      assert (setslice2 img (R * size_y) (R * size_y + size_y)
                (C * size_x) (C * size_x + size_x) v = Raises ValueError) as ->.
      { unfold setslice2. rewrite H0, H1, Hv0, Hv1.
        rewrite (can_broadcast_window size_y h bound_y R) by done.
        rewrite (can_broadcast_window size_x w bound_x C) by done.
        fold ay ax. by rewrite Htake. }
      cbn [try_except mbind outcome_bind]. eexists. split; [done|].
      cbn [fst snd]. rewrite Nat.add_0_r, Nat.min_l by lia.
      split_and!; [done|done|done|lia|done].
  - (* the list is exhausted: [IndexError], caught *)
    rewrite Nat.min_r in * by lia.
    rewrite (lookup_ge_None_2 imgs (length imgs)) by lia.
    cbn [try_except mbind outcome_bind]. eexists. split; [done|].
    cbn [fst snd]. rewrite Nat.min_r by lia.
    split_and!; [done|done|done|lia|done].
Qed.

Lemma scan_inv_next_row R s :
  inv R (bound_x / size_x) s → inv (S R) 0 s.
Proof.
  unfold scan_inv. cbv zeta. fold ay ax. rewrite taken_before_row; [done|].
  by apply takers_le.
Qed.

(** One row of the scan. *)
Lemma row_rounds R s :
  R < bound_y / size_y → inv R 0 s →
  ∃ s', rounds size_x (sto (R * size_y)) (bound_x / size_x) s 0 = Returns s'
        ∧ inv (S R) 0 s'.
Proof.
  intros HR Hinv.
  destruct (rounds_invariant size_x (sto (R * size_y)) (inv R)
              (bound_x / size_x) s 0 Hinv) as (s' & Hs' & Hinv').
  { intros C s1 HC Hs1. apply store_step; [done|lia|done]. }
  exists s'. split; [done|]. by apply scan_inv_next_row.
Qed.

(** The whole scan, from a canvas on which nothing is stored yet. *)
Lemma combine_scan_returns fuel img0 border_y border_x :
  bound_y = h + border_y * 2 → bound_x = w + border_x * 2 →
  bound_y / size_y < fuel → bound_x / size_x < fuel →
  inv 0 0 (img0, 0%Z) →
  ∃ s', combine_scan fuel imgs img0 size_y size_x border_y border_x h w
          = Returns s'
        ∧ inv (bound_y / size_y) 0 s'.
Proof.
  intros Hby Hbx Hfy Hfx Hinv. unfold combine_scan.
  rewrite <- Hby, <- Hbx.
  pose (row := λ (s : ndarray float * Z) (curr_y : nat),
          rounds size_x (sto curr_y) (bound_x / size_x) s 0).
  match goal with
  | |- ∃ _, while _ ?c ?b _ ≫= _ = _ ∧ _ =>
      assert (Hc : ∀ s k, c (s, k) = (k + size_y <=? bound_y))
        by (by intros [img i] k);
      assert (Hb : ∀ s k, b (s, k) = (s' ← row s k; Returns (s', k + size_y)))
  end.
  { intros [img i] curr_y. cbv beta iota.
    match goal with
    | |- while _ ?c ?b _ ≫= _ = _ =>
        rewrite (while_counter size_x bound_x (sto curr_y) c b size_x_pos)
          with (n := bound_x / size_x)
    end; [|by intros [img1 i1] k| |by rewrite Nat.sub_0_r|done].
    - unfold row. by destruct (rounds _ _ _ _ _) as [[img1 i1]| |].
    - intros [img1 i1] k. unfold store. cbn [fst snd].
      by destruct (try_except _ _) as [[img2 i2]| |]. }
  rewrite (while_counter size_y bound_y row _ _ size_y_pos Hc Hb
             (bound_y / size_y)) by (by rewrite ?Nat.sub_0_r).
  destruct (rounds_invariant size_y row (λ R s, inv R 0 s)
              (bound_y / size_y) (img0, 0%Z) 0 Hinv) as (s' & Hs' & Hinv').
  { intros R s1 HR Hs1. apply row_rounds; [lia|done]. }
  simpl in Hs'. rewrite Hs'. exists s'. split; [by destruct s'|done].
Qed.
End stitch_scan.

(** * What [combine_imgs] returns *)

Lemma div_le_self a b : a / b ≤ a.
Proof.
  destruct b as [|b]; [simpl; lia|].
  apply Nat.Div0.div_le_upper_bound. nia.
Qed.

Lemma patch_index_lt size_y size_x ay ax r c j :
  patch_index size_y size_x ay ax r c = Some j → j < ay * ax.
Proof.
  unfold patch_index.
  destruct (Nat.ltb_spec (r / size_y) ay), (Nat.ltb_spec (c / size_x) ax);
    cbn [andb]; [|done..].
  intros [= <-]. nia.
Qed.

Lemma stitched_cutoff {T : Type} `{AsFloat T} (imgs : list (ndarray T))
    size_y size_x ay ax r c :
  stitched imgs size_y size_x ay ax ((ay * ax) `min` length imgs) r c
    = stitched imgs size_y size_x ay ax (length imgs) r c.
Proof.
  unfold stitched.
  destruct (patch_index size_y size_x ay ax r c) as [j|] eqn:Hj; [|done].
  apply patch_index_lt in Hj.
  destruct (Nat.ltb_spec j ((ay * ax) `min` length imgs)),
           (Nat.ltb_spec j (length imgs)); (done || lia).
Qed.

Lemma taken_before_start ay ax : taken_before ay ax 0 0 = 0.
Proof.
  unfold taken_before. rewrite !Nat.min_0_l. by destruct (0 <? ay).
Qed.

Lemma taken_before_end ay ax R : ay ≤ R → taken_before ay ax R 0 = ay * ax.
Proof.
  intros Hle. unfold taken_before.
  rewrite Nat.min_r by done. destruct (Nat.ltb_spec R ay); lia.
Qed.

Lemma combine_imgs_returns {T : Type} `{AsFloat T} (imgs : list (ndarray T))
    (size_y size_x border_y border_x max_y max_x fuel : nat) :
  imgs ≠ [] →
  Forall (λ p, wf p ∧ shape0 p = size_y ∧ shape1 p = size_x) imgs →
  0 < size_y → 0 < size_x →
  combine_fuel border_y border_x max_y max_x ≤ fuel →
  ∃ out,
    combine_imgs fuel imgs border_y border_x max_y max_x = Returns out
    ∧ wf out ∧ shape0 out = max_y ∧ shape1 out = max_x
    ∧ ∀ r c, r < max_y → c < max_x →
        pixel out r c =
          Some (stitched imgs size_y size_x
                  (takers size_y (max_y + border_y * 2)
                          (max_y + border_y * 2 + border_y * 2))
                  (takers size_x (max_x + border_x * 2)
                          (max_x + border_x * 2 + border_x * 2))
                  (length imgs) (border_y + r) (border_x + c)).
Proof.
  intros Hne Hok Hsy Hsx Hfuel. unfold combine_imgs, combine_fuel in *.
  destruct imgs as [|p0 rest] eqn:Himgs; [done|]. rewrite <- Himgs in *.
  assert (py_getitem imgs 0%Z = Returns p0) as ->.
  { by rewrite Himgs. }
  cbn [mbind outcome_bind].
  assert (wf p0 ∧ shape0 p0 = size_y ∧ shape1 p0 = size_x) as (_ & -> & ->).
  { apply (proj1 (Forall_lookup _ _) Hok 0). by rewrite Himgs. }
  set (h := max_y + border_y * 2). set (w := max_x + border_x * 2).
  set (bound_y := h + border_y * 2). set (bound_x := w + border_x * 2).
  pose proof (div_le_self bound_y size_y) as Hdy.
  pose proof (div_le_self bound_x size_x) as Hdx.
  destruct (combine_scan_returns imgs size_y size_x h w bound_y bound_x
              Hok Hsy Hsx ltac:(lia) ltac:(lia) fuel (zeros h w)
              border_y border_x eq_refl eq_refl ltac:(lia) ltac:(lia))
    as ([img i] & -> & Hwf & Hs0 & Hs1 & _ & Hpx).
  { unfold scan_inv. cbn [fst snd]. split_and!.
    - apply wf_full.
    - done.
    - done.
    - by rewrite taken_before_start.
    - intros r c Hr Hc. unfold zeros. rewrite pixel_full by done.
      f_equal. rewrite taken_before_start. unfold stitched.
      by destruct (patch_index _ _ _ _ _ _). }
  cbn [fst snd] in *. cbn [mbind outcome_bind]. eexists. split; [done|].
  rewrite Hs0, Hs1. split_and!.
  - by apply wf_getslice2.
  - simpl. unfold slice_len. lia.
  - simpl. unfold slice_len. lia.
  - intros r c Hr Hc. rewrite pixel_getslice2 by lia.
    rewrite Hpx by lia. f_equal.
    rewrite taken_before_end by (by apply takers_le; lia).
    apply stitched_cutoff.
Qed.

Lemma wf_map_pixels {A B : Type} (f : A → B) (a : ndarray A) :
  wf a → wf (map_pixels f a).
Proof.
  intros [Hl Hw]. split; simpl.
  - by rewrite length_map.
  - apply Forall_forall. intros row Hrow. apply list_elem_of_In in Hrow.
    apply in_map_iff in Hrow as (old & <- & Hold). rewrite length_map.
    apply (proj1 (Forall_forall _ _) Hw). by apply list_elem_of_In.
Qed.

Lemma pixel_map_pixels {A B : Type} (f : A → B) (a : ndarray A) r c :
  pixel (map_pixels f a) r c = f <$> pixel a r c.
Proof.
  unfold pixel, map_pixels. simpl.
  change (map (map f) (rows a)) with (map f <$> rows a).
  rewrite list_lookup_fmap. destruct (rows a !! r) as [row|]; simpl; [|done].
  change (map f row) with (f <$> row). apply list_lookup_fmap.
Qed.

(** The windows cut by [split_img] are whole patches. *)
Lemma grid_windows_ok img size_x size_y :
  wf img → 0 < size_x → 0 < size_y →
  Forall (λ p, wf p ∧ shape0 p = size_y ∧ shape1 p = size_x)
    (grid_windows img size_x size_y (shape1 img / size_x) (shape0 img / size_y)).
Proof.
  intros Hwf Hx Hy. apply Forall_lookup. intros i p Hp.
  pose proof (lookup_lt_Some _ _ _ Hp) as Hi.
  rewrite length_grid_windows in Hi.
  rewrite lookup_grid_windows in Hp by done. injection Hp as <-.
  set (nx := shape1 img / size_x) in *. set (ny := shape0 img / size_y) in *.
  assert (0 < nx) as Hnx by (destruct nx; lia).
  pose proof (Nat.mod_upper_bound i nx ltac:(lia)).
  assert (i / nx < ny) by (apply Nat.Div0.div_lt_upper_bound; lia).
  split_and!.
  - by apply wf_getslice2.
  - apply slice_len_window with (cnt := ny); [done|].
    apply Nat.Div0.mul_div_le.
  - apply slice_len_window with (cnt := nx); [done|].
    apply Nat.Div0.mul_div_le.
Qed.

(** A position of the original image, moved into the frame, lies in a whole
    window of the padded image. *)
Lemma framed_in_grid size n r :
  0 < size → n mod size ≠ 0 → r < n →
  (border size n + r) / size < (n + 2 * border size n) / size.
Proof.
  intros Hs E Hr.
  pose proof (border_pos size n Hs E) as Hb.
  destruct (padded_div_mod size n Hs) as [_ Hmod].
  pose proof (Nat.div_mod_eq (n + 2 * border size n) size) as Hdm.
  rewrite Hmod in Hdm. destruct (Nat.eqb_spec (n mod size) 0) as [|_]; [done|].
  pose proof (Nat.mod_upper_bound (size - n mod size) 2 ltac:(lia)).
  apply Nat.Div0.div_lt_upper_bound. lia.
Qed.

(** * Claims about [combine_imgs] *)

(** C1: for every image whose height and width are not multiples of the
    patch size, [combine_imgs] applied to the patches and borders returned by
    [split_img], with the original height and width, returns an image of
    exactly the original height and width whose pixels are the original
    pixels (as [float64] values). *)
Theorem split_combine_roundtrip (img : ndarray Z) (size_x size_y fuel : nat) :
  wf img → 0 < size_x → 0 < size_y →
  shape0 img mod size_y ≠ 0 → shape1 img mod size_x ≠ 0 →
  split_fuel img ≤ fuel →
  ∃ parts border_y border_x,
    split_img fuel img size_x size_y = Returns (parts, border_y, border_x)
    ∧ ∀ fuel',
        combine_fuel border_y border_x (shape0 img) (shape1 img) ≤ fuel' →
        ∃ out,
          combine_imgs fuel' parts border_y border_x (shape0 img) (shape1 img)
            = Returns out
          ∧ shape0 out = shape0 img ∧ shape1 out = shape1 img
          ∧ out = map_pixels as_float img.
Proof.
  intros Hwf Hx Hy Ey Ex Hfuel. eexists _, _, _.
  split; [by apply split_img_returns|]. intros fuel' Hfuel'.
  set (p := padded img size_x size_y).
  set (b0 := border size_y (shape0 img)) in *.
  set (b1 := border size_x (shape1 img)) in *.
  set (nx := shape1 p / size_x). set (ny := shape0 p / size_y).
  assert (shape0 p = shape0 img + 2 * b0) as Hp0 by apply padded_shape0.
  assert (shape1 p = shape1 img + 2 * b1) as Hp1 by apply padded_shape1.
  assert (0 < ny) as Hny.
  { apply Nat.div_str_pos. split; [done|]. rewrite Hp0. by apply padded_covers. }
  assert (0 < nx) as Hnx.
  { apply Nat.div_str_pos. split; [done|]. rewrite Hp1. by apply padded_covers. }
  pose proof (grid_windows_ok p size_x size_y (wf_padded _ _ _ Hwf) Hx Hy) as Hok.
  fold nx ny in Hok.
  assert (grid_windows p size_x size_y nx ny ≠ []) as Hne.
  { intros Hnil. apply (f_equal length) in Hnil.
    rewrite length_grid_windows in Hnil. simpl in Hnil. nia. }
  destruct (combine_imgs_returns _ size_y size_x b0 b1 (shape0 img) (shape1 img)
              fuel' Hne Hok Hy Hx Hfuel') as (out & Hout & Hwfo & Ho0 & Ho1 & Hpx).
  exists out. split_and!; [done..|].
  apply ndarray_eq; [done|by apply wf_map_pixels|done|done|].
  rewrite Ho0, Ho1. intros r c Hr Hc.
  rewrite Hpx, pixel_map_pixels by done.
  (* every window of the canvas is whole: the patch size is not 1 *)
  assert (takers size_y (shape0 img + b0 * 2) (shape0 img + b0 * 2 + b0 * 2) = ny)
    as ->.
  { unfold takers, ny. rewrite Hp0.
    destruct (Nat.eqb_spec size_y 1) as [->|_]; [by rewrite Nat.mod_1_r in Ey|].
    f_equal. lia. }
  assert (takers size_x (shape1 img + b1 * 2) (shape1 img + b1 * 2 + b1 * 2) = nx)
    as ->.
  { unfold takers, nx. rewrite Hp1.
    destruct (Nat.eqb_spec size_x 1) as [->|_]; [by rewrite Nat.mod_1_r in Ex|].
    f_equal. lia. }
  (* the position lies in window (R, C) of the grid *)
  set (R := (b0 + r) / size_y). set (C := (b1 + c) / size_x).
  assert (R < ny) as HR.
  { unfold R, ny. rewrite Hp0. by apply framed_in_grid. }
  assert (C < nx) as HC.
  { unfold C, nx. rewrite Hp1. by apply framed_in_grid. }
  unfold stitched, patch_index. fold R C.
  destruct (Nat.ltb_spec R ny); [|lia]. destruct (Nat.ltb_spec C nx); [|lia].
  cbn [andb]. rewrite length_grid_windows.
  destruct (Nat.ltb_spec (R * nx + C) (ny * nx)); [|nia].
  rewrite lookup_grid_windows by done.
  rewrite <- (Nat.div_unique (R * nx + C) nx R C) by lia.
  rewrite <- (Nat.mod_unique (R * nx + C) nx R C) by lia.
  cbn [mbind option_bind].
  pose proof (Nat.mod_upper_bound (b0 + r) size_y ltac:(lia)).
  pose proof (Nat.mod_upper_bound (b1 + c) size_x ltac:(lia)).
  rewrite pixel_getslice2 by lia.
  replace (R * size_y + (b0 + r) mod size_y) with (b0 + r)
    by (unfold R; pose proof (Nat.div_mod_eq (b0 + r) size_y); lia).
  replace (C * size_x + (b1 + c) mod size_x) with (b1 + c)
    by (unfold C; pose proof (Nat.div_mod_eq (b1 + c) size_x); lia).
  unfold p. rewrite pixel_padded; [|done|fold p; lia|fold p; lia].
  fold b0 b1.
  destruct (Nat.leb_spec b0 (b0 + r)); [|lia].
  destruct (Nat.ltb_spec (b0 + r) (b0 + shape0 img)); [|lia].
  destruct (Nat.leb_spec b1 (b1 + c)); [|lia].
  destruct (Nat.ltb_spec (b1 + c) (b1 + shape1 img)); [|lia].
  cbn [andb].
  replace (b0 + r - b0) with r by lia. replace (b1 + c - b1) with c by lia.
  by destruct (pixel_is_some img r c Hwf Hr Hc) as [v ->].
Qed.

Lemma split_combine_roundtrip_witness :
  ∃ parts border_y border_x,
    split_img 9 (NdArray 3 4 [[1; 2; 3; 4]; [5; 6; 7; 8]; [9; 10; 11; 12]]%Z) 3 2
      = Returns (parts, border_y, border_x)
    ∧ ∀ fuel',
        combine_fuel border_y border_x 3 4 ≤ fuel' →
        ∃ out,
          combine_imgs fuel' parts border_y border_x 3 4 = Returns out
          ∧ shape0 out = 3 ∧ shape1 out = 4
          ∧ out = map_pixels as_float
                    (NdArray 3 4 [[1; 2; 3; 4]; [5; 6; 7; 8]; [9; 10; 11; 12]]%Z).
Proof.
  apply (split_combine_roundtrip
           (NdArray 3 4 [[1; 2; 3; 4]; [5; 6; 7; 8]; [9; 10; 11; 12]]%Z) 3 2 9);
    [split; [reflexivity | repeat constructor]
    | lia | lia | simpl; lia | simpl; lia | unfold split_fuel; simpl; lia].
Defined.

(** C10, as the code has it: for every non-empty list of patches that all
    have the same size, with at least one row and one column, and for all
    [border_y], [border_x], [max_y], [max_x], [combine_imgs] raises nothing
    and returns an array of shape exactly [(max_y, max_x)], however few
    patches the list holds. A position over which the scan stores patch
    number [j] holds the pixel of that patch; a position for which no patch
    is stored (no window takes one there, or the list has no patch [j])
    keeps the initial value 0.0 of the canvas. *)
Theorem combine_imgs_total {T : Type} `{AsFloat T} (imgs : list (ndarray T))
    (size_y size_x border_y border_x max_y max_x fuel : nat) :
  imgs ≠ [] →
  Forall (λ p, wf p ∧ shape0 p = size_y ∧ shape1 p = size_x) imgs →
  0 < size_y → 0 < size_x →
  combine_fuel border_y border_x max_y max_x ≤ fuel →
  ∃ out,
    combine_imgs fuel imgs border_y border_x max_y max_x = Returns out
    ∧ wf out ∧ shape0 out = max_y ∧ shape1 out = max_x
    ∧ ∀ r c, r < max_y → c < max_x →
        let ay := takers size_y (max_y + border_y * 2)
                         (max_y + border_y * 2 + border_y * 2) in
        let ax := takers size_x (max_x + border_x * 2)
                         (max_x + border_x * 2 + border_x * 2) in
        match patch_index size_y size_x ay ax (border_y + r) (border_x + c)
              ≫= λ j, imgs !! j with
        | Some p =>
            pixel out r c
              = as_float <$> pixel p ((border_y + r) mod size_y)
                                     ((border_x + c) mod size_x)
        | None => pixel out r c = Some 0%float
        end.
Proof.
  intros Hne Hok Hsy Hsx Hfuel.
  destruct (combine_imgs_returns imgs size_y size_x border_y border_x
              max_y max_x fuel Hne Hok Hsy Hsx Hfuel)
    as (out & Hout & Hwf & H0 & H1 & Hpx).
  exists out. split_and!; [done..|].
  intros r c Hr Hc ay ax. rewrite (Hpx r c Hr Hc). fold ay ax.
  unfold stitched.
  destruct (patch_index size_y size_x ay ax (border_y + r) (border_x + c))
    as [j|]; cbn [mbind option_bind]; [|done].
  destruct (imgs !! j) as [p|] eqn:Hj; cbn [mbind option_bind].
  - apply lookup_lt_Some in Hj as Hlt.
    destruct (Nat.ltb_spec j (length imgs)); [|lia].
    destruct (proj1 (Forall_lookup _ _) Hok j p Hj) as (Hp & Hp0 & Hp1).
    destruct (patch_pixel p size_y size_x (border_y + r) (border_x + c)
                Hsy Hsx Hp Hp0 Hp1) as [v ->].
    done.
  - by destruct (j <? length imgs).
Qed.

Lemma combine_imgs_total_witness :
  ∃ out,
    combine_imgs 9 [full 2 2 1%Z; full 2 2 2%Z; full 2 2 3%Z] 0 0 4 4
      = Returns out
    ∧ wf out ∧ shape0 out = 4 ∧ shape1 out = 4
    ∧ ∀ r c, r < 4 → c < 4 →
        match patch_index 2 2 2 2 r c
              ≫= λ j, [full 2 2 1%Z; full 2 2 2%Z; full 2 2 3%Z] !! j with
        | Some p => pixel out r c = as_float <$> pixel p (r mod 2) (c mod 2)
        | None => pixel out r c = Some 0%float
        end.
Proof.
  apply (combine_imgs_total [full 2 2 1%Z; full 2 2 2%Z; full 2 2 3%Z]
           2 2 0 0 4 4 9);
    [discriminate
    | repeat constructor
    | lia | lia | unfold combine_fuel; simpl; lia].
Defined.

(** C10, counterexample: a list holding one patch with no rows and no
    columns (a non-empty list of well-formed patches of one size) never lets
    [combine_imgs] return: both loops advance by 0, so every amount of fuel
    runs out. *)
Lemma combine_imgs_empty_patch_diverges :
  Forall (λ p, wf p ∧ shape0 p = 0 ∧ shape1 p = 0)
    [NdArray 0 0 ([] : list (list float))]
  ∧ ∀ fuel, combine_imgs fuel [NdArray 0 0 ([] : list (list float))] 0 0 2 2
            = OutOfFuel.
Proof.
  split; [by repeat constructor|]. intros fuel.
  assert (combine_scan fuel [NdArray 0 0 ([] : list (list float))]
            (zeros 2 2) 0 0 0 0 2 2 = OutOfFuel) as Hscan.
  { unfold combine_scan. destruct fuel as [|fuel]; [done|].
    rewrite while_step by reflexivity. cbv beta iota.
    rewrite (while_stuck_after _ _ (zeros 2 2, 0%Z, 0) (zeros 2 2, 1%Z, 0))
      by reflexivity.
    done. }
  unfold combine_imgs. cbv beta zeta.
  change (py_getitem _ 0%Z) with (Returns (NdArray 0 0 ([] : list (list float)))).
  cbn [mbind outcome_bind shape0 shape1].
  change (2 + 0 * 2) with 2. by rewrite Hscan.
Qed.

(** C4, as the code has it: stitching with fewer patches than the scan has
    cells raises nothing. For every non-empty list of patches of one size
    (at least one row and one column) that is shorter than the number of
    cells of the scan, [combine_imgs] returns an array of shape
    [(max_y, max_x)]: the [IndexError] of the exhausted list is caught by
    the [except] branch. *)
Theorem combine_imgs_short_list_returns {T : Type} `{AsFloat T}
    (imgs : list (ndarray T))
    (size_y size_x border_y border_x max_y max_x fuel : nat) :
  imgs ≠ [] →
  Forall (λ p, wf p ∧ shape0 p = size_y ∧ shape1 p = size_x) imgs →
  0 < size_y → 0 < size_x →
  length imgs < (max_y + border_y * 2 + border_y * 2) / size_y
                * ((max_x + border_x * 2 + border_x * 2) / size_x) →
  combine_fuel border_y border_x max_y max_x ≤ fuel →
  ∃ out,
    combine_imgs fuel imgs border_y border_x max_y max_x = Returns out
    ∧ shape0 out = max_y ∧ shape1 out = max_x
    ∧ ∀ e, combine_imgs fuel imgs border_y border_x max_y max_x ≠ Raises e.
Proof.
  intros Hne Hok Hsy Hsx _ Hfuel.
  destruct (combine_imgs_returns imgs size_y size_x border_y border_x
              max_y max_x fuel Hne Hok Hsy Hsx Hfuel)
    as (out & Hout & _ & H0 & H1 & _).
  exists out. split_and!; [done..|]. intros e. by rewrite Hout.
Qed.

Lemma combine_imgs_short_list_returns_witness :
  ∃ out,
    combine_imgs 9 [full 2 2 1%Z; full 2 2 2%Z; full 2 2 3%Z] 0 0 4 4
      = Returns out
    ∧ shape0 out = 4 ∧ shape1 out = 4
    ∧ ∀ e, combine_imgs 9 [full 2 2 1%Z; full 2 2 2%Z; full 2 2 3%Z] 0 0 4 4
           ≠ Raises e.
Proof.
  apply (combine_imgs_short_list_returns
           [full 2 2 1%Z; full 2 2 2%Z; full 2 2 3%Z] 2 2 0 0 4 4 9);
    [discriminate
    | repeat constructor
    | lia | lia | simpl; lia | unfold combine_fuel; simpl; lia].
Defined.

(** C4, counterexample: a canvas of 4 by 4 has four cells of 2 by 2; given
    only three patches, [combine_imgs] raises nothing and returns an image
    whose last cell is left at 0.0. *)
Lemma combine_imgs_three_of_four_patches :
  length [full 2 2 1%Z; full 2 2 2%Z; full 2 2 3%Z] < (4 / 2) * (4 / 2)
  ∧ combine_imgs 9 [full 2 2 1%Z; full 2 2 2%Z; full 2 2 3%Z] 0 0 4 4
    = Returns (NdArray 4 4 [[1; 1; 2; 2]; [1; 1; 2; 2];
                            [3; 3; 0; 0]; [3; 3; 0; 0]]%float).
Proof. split; [simpl; lia|]. by vm_compute. Qed.

(** * Claims about the rescaling *)

Lemma denormalize_normalize_all :
  forallb (λ k, (denormalize (normalize k) =? k)%Z) (seqZ 0 256) = true.
Proof. by vm_compute. Qed.




(** * Claims about [postprocess_img] *)

Lemma pixels_full h w (c : Z) : Forall (eq c) (pixels (full h w c)).
Proof.
  unfold pixels, full. simpl. apply Forall_concat.
  apply Forall_replicate, Forall_replicate. done.
Qed.

Lemma filter_le_const (l : list Z) (c t : Z) :
  Forall (eq c) l →
  filter (λ p, (p ≤ t)%Z) l = if decide (c ≤ t)%Z then l else [].
Proof.
  induction 1 as [|x l <- _ IH]; [by case_decide|].
  rewrite filter_cons, IH. by repeat case_decide.
Qed.

Lemma class_count_const (img : ndarray Z) (c t : Z) :
  Forall (eq c) (pixels img) →
  class_count img t
    = if decide (c ≤ t)%Z then Z.of_nat (length (pixels img)) else 0%Z.
Proof.
  intros Hc. unfold class_count. rewrite (filter_le_const _ c t Hc).
  by case_decide.
Qed.

(** On an image of one grey level no level splits the pixels in two
    classes, and the search keeps its initial threshold 0. *)
Lemma otsu_threshold_const (img : ndarray Z) (c : Z) :
  (c ≤ 255)%Z → Forall (eq c) (pixels img) → otsu_threshold img = 0%Z.
Proof.
  intros Hc Hall. unfold otsu_threshold.
  assert (∀ l best, foldl (otsu_step img) best l = best) as ->; [|done].
  induction l as [|t l IH]; intros best; [done|]. simpl. rewrite IH.
  unfold otsu_step. rewrite !(class_count_const img c) by done.
  repeat case_decide; try lia.
  - by rewrite Z.sub_diag, Z.eqb_refl, orb_true_r.
  - done.
Qed.

Lemma map_pixels_full {A B : Type} (f : A → B) h w (c : A) :
  map_pixels f (full h w c) = full h w (f c).
Proof.
  unfold map_pixels, full. simpl. f_equal.
  change (map (map f) (replicate h (replicate w c)))
    with (fmap (M := list) (fmap (M := list) f) (replicate h (replicate w c))).
  by rewrite !fmap_replicate.
Qed.

Lemma pixel_at_full h w (c v : Z) y x :
  pixel_at (full h w c) y x = Some v → v = c.
Proof.
  unfold pixel_at, pixel, full. simpl.
  destruct ((0 <=? y)%Z && (0 <=? x)%Z); [|done].
  destruct (replicate h (replicate w c) !! Z.to_nat y) as [row|] eqn:Hrow;
    simpl; [|done].
  apply lookup_replicate in Hrow as [-> _]. intros Hv.
  by apply lookup_replicate in Hv as [-> _].
Qed.

Lemma neighbours_full h w (c : Z) kernel r c' :
  Forall (eq c) (neighbours (full h w c) kernel r c').
Proof.
  apply Forall_forall. intros v Hv. unfold neighbours in Hv.
  apply list_elem_of_omap in Hv as ([dr dc] & _ & Hv).
  symmetry. by eapply pixel_at_full.
Qed.

Lemma neighbours_centre h w (c : Z) kernel r c' :
  r < h → c' < w → (0%Z, 0%Z) ∈ kernel_offsets kernel →
  c ∈ neighbours (full h w c) kernel r c'.
Proof.
  intros Hr Hc Hin. unfold neighbours. apply list_elem_of_omap.
  exists (0%Z, 0%Z). split; [done|]. simpl. rewrite !Z.add_0_r.
  unfold pixel_at.
  destruct (Z.leb_spec 0 (Z.of_nat r)); [|lia].
  destruct (Z.leb_spec 0 (Z.of_nat c')); [|lia].
  simpl. rewrite !Nat2Z.id. by apply pixel_full.
Qed.

Lemma foldr_min_const (l : list Z) (c : Z) :
  (c ≤ 255)%Z → Forall (eq c) l → c ∈ l → foldr Z.min 255%Z l = c.
Proof.
  intros Hc Hall Hin.
  assert (∀ l', Forall (eq c) l' → l' = [] ∨ foldr Z.min 255%Z l' = c) as Haux.
  { induction 1 as [|x l' <- _ IH]; [by left|]. right. simpl.
    destruct IH as [->| ->]; simpl; lia. }
  destruct (Haux l Hall) as [->|]; [|done]. by apply elem_of_nil in Hin.
Qed.

Lemma foldr_max_const (l : list Z) (c : Z) :
  (0 ≤ c)%Z → Forall (eq c) l → c ∈ l → foldr Z.max 0%Z l = c.
Proof.
  intros Hc Hall Hin.
  assert (∀ l', Forall (eq c) l' → l' = [] ∨ foldr Z.max 0%Z l' = c) as Haux.
  { induction 1 as [|x l' <- _ IH]; [by left|]. right. simpl.
    destruct IH as [->| ->]; simpl; lia. }
  destruct (Haux l Hall) as [->|]; [|done]. by apply elem_of_nil in Hin.
Qed.

(** A filter whose value on a constant image is the constant itself. *)
Lemma filter_full h w (c : Z) (g : nat → nat → Z) :
  (∀ r c', r < h → c' < w → g r c' = c) →
  NdArray h w (imap (λ r row, imap (λ c' _, g r c') row)
                    (rows (full h w c)))
    = full h w c.
Proof.
  intros Hg. unfold full. simpl. f_equal. apply list_eq. intros r.
  rewrite list_lookup_imap.
  destruct (decide (r < h)) as [Hr|Hr].
  - rewrite lookup_replicate_2 by done. simpl. f_equal.
    apply list_eq. intros c'. rewrite list_lookup_imap.
    destruct (decide (c' < w)) as [Hc|Hc].
    + rewrite lookup_replicate_2 by done. simpl. f_equal. by apply Hg.
    + by rewrite (proj1 (lookup_replicate_None _ _ _)) by lia.
  - by rewrite (proj1 (lookup_replicate_None _ _ _)) by lia.
Qed.

Lemma cross_has_centre : (0%Z, 0%Z) ∈ kernel_offsets (getStructuringElement_cross 3 3).
Proof. vm_compute. apply list_elem_of_In. simpl. tauto. Qed.

Lemma erode_full h w (c : Z) :
  (c ≤ 255)%Z →
  erode (full h w c) (getStructuringElement_cross 3 3) = full h w c.
Proof.
  intros Hc. unfold erode. apply filter_full. intros r c' Hr Hc'.
  apply foldr_min_const; [done|apply neighbours_full|].
  apply neighbours_centre; [done|done|apply cross_has_centre].
Qed.

Lemma dilate_full h w (c : Z) :
  (0 ≤ c)%Z →
  dilate (full h w c) (getStructuringElement_cross 3 3) = full h w c.
Proof.
  intros Hc. unfold dilate. apply filter_full. intros r c' Hr Hc'.
  apply foldr_max_const; [done|apply neighbours_full|].
  apply neighbours_centre; [done|done|apply cross_has_centre].
Qed.

(** C9: on a non-empty all-white image, and on a non-empty all-black
    image, [postprocess_img] returns the image unchanged. *)
Theorem postprocess_img_constant (h w : nat) :
  0 < h → 0 < w →
  postprocess_img (full h w 255%Z) = full h w 255%Z
  ∧ postprocess_img (full h w 0%Z) = full h w 0%Z.
Proof.
  intros _ _. unfold postprocess_img, threshold_binary_otsu. split.
  - rewrite (otsu_threshold_const _ 255) by (done || apply pixels_full).
    rewrite map_pixels_full. simpl.
    rewrite erode_full by done. by apply dilate_full.
  - rewrite (otsu_threshold_const _ 0) by (done || apply pixels_full).
    rewrite map_pixels_full. simpl.
    rewrite erode_full by done. by apply dilate_full.
Qed.

Lemma postprocess_img_constant_witness :
  postprocess_img (full 3 4 255%Z) = full 3 4 255%Z
  ∧ postprocess_img (full 3 4 0%Z) = full 3 4 0%Z.
Proof. apply (postprocess_img_constant 3 4); lia. Defined.

(** * Further properties of [split_img] and [combine_imgs] *)

Lemma framed_in_grid_any size n r :
  0 < size → r < n →
  (border size n + r) / size < (n + 2 * border size n) / size.
Proof.
  intros Hs Hr. destruct (decide (n mod size = 0)) as [E|E].
  - rewrite (border_zero _ _ E), Nat.add_0_r. simpl.
    pose proof (Nat.div_mod_eq n size) as Hn. rewrite E in Hn.
    apply Nat.Div0.div_lt_upper_bound. lia.
  - by apply framed_in_grid.
Qed.

Lemma padded_rows_pos size n :
  0 < size → 0 < n → 0 < (n + 2 * border size n) / size.
Proof.
  intros Hs Hn. apply Nat.div_str_pos. split; [done|].
  destruct (decide (n mod size = 0)) as [E|E].
  - rewrite (border_zero _ _ E).
    pose proof (Nat.div_mod_eq n size) as Hd. rewrite E in Hd.
    destruct (n / size) as [|q]; [lia|nia].
  - by apply padded_covers.
Qed.

(** Every window of the canvas that [combine_imgs] builds from the borders of
    [split_img] is whole. *)
Lemma takers_padded size n :
  0 < size →
  takers size (n + border size n * 2) (n + border size n * 2 + border size n * 2)
    = (n + 2 * border size n) / size.
Proof.
  intros Hs. unfold takers. destruct (Nat.eqb_spec size 1) as [->|_].
  - rewrite (border_zero 1 n) by apply Nat.mod_1_r. f_equal. lia.
  - f_equal. lia.
Qed.

Lemma border_le_half size n : 0 < size → 2 * border size n ≤ size.
Proof.
  intros Hs. destruct (decide (n mod size = 0)) as [E|E].
  - rewrite (border_zero _ _ E). lia.
  - rewrite (border_twice _ _ E).
    pose proof (Nat.mod_upper_bound n size ltac:(lia)).
    pose proof (Nat.mod_upper_bound (size - n mod size) 2 ltac:(lia)). lia.
Qed.

(** The patch that holds a pixel of the original image, and where. *)
Lemma split_img_patch_of_pixel img size_x size_y r c :
  wf img → 0 < size_x → 0 < size_y → r < shape0 img → c < shape1 img →
  let p := padded img size_x size_y in
  let b0 := border size_y (shape0 img) in
  let b1 := border size_x (shape1 img) in
  let nx := shape1 p / size_x in
  let ny := shape0 p / size_y in
  let j := (b0 + r) / size_y * nx + (b1 + c) / size_x in
  (b0 + r) / size_y < ny ∧ (b1 + c) / size_x < nx
  ∧ ∃ patch,
      grid_windows p size_x size_y nx ny !! j = Some patch
      ∧ pixel patch ((b0 + r) mod size_y) ((b1 + c) mod size_x)
        = pixel img r c.
Proof.
  intros Hwf Hx Hy Hr Hc p b0 b1 nx ny j.
  assert (shape0 p = shape0 img + 2 * b0) as Hp0 by apply padded_shape0.
  assert (shape1 p = shape1 img + 2 * b1) as Hp1 by apply padded_shape1.
  set (R := (b0 + r) / size_y) in *. set (C := (b1 + c) / size_x) in *.
  assert (R < ny) as HR.
  { unfold R, ny. rewrite Hp0. by apply framed_in_grid_any. }
  assert (C < nx) as HC.
  { unfold C, nx. rewrite Hp1. by apply framed_in_grid_any. }
  split_and!; [done..|]. eexists. split.
  { apply lookup_grid_windows. unfold j. nia. }
  unfold j.
  rewrite <- (Nat.div_unique (R * nx + C) nx R C) by lia.
  rewrite <- (Nat.mod_unique (R * nx + C) nx R C) by lia.
  pose proof (Nat.mod_upper_bound (b0 + r) size_y ltac:(lia)).
  pose proof (Nat.mod_upper_bound (b1 + c) size_x ltac:(lia)).
  rewrite pixel_getslice2 by lia.
  replace (R * size_y + (b0 + r) mod size_y) with (b0 + r)
    by (unfold R; pose proof (Nat.div_mod_eq (b0 + r) size_y); lia).
  replace (C * size_x + (b1 + c) mod size_x) with (b1 + c)
    by (unfold C; pose proof (Nat.div_mod_eq (b1 + c) size_x); lia).
  unfold p. rewrite pixel_padded; [|done|fold p; lia|fold p; lia].
  fold b0 b1.
  destruct (Nat.leb_spec b0 (b0 + r)); [|lia].
  destruct (Nat.ltb_spec (b0 + r) (b0 + shape0 img)); [|lia].
  destruct (Nat.leb_spec b1 (b1 + c)); [|lia].
  destruct (Nat.ltb_spec (b1 + c) (b1 + shape1 img)); [|lia].
  cbn [andb]. by replace (b0 + r - b0) with r by lia;
    replace (b1 + c - b1) with c by lia.
Qed.

(** Stitching the patches of [split_img], each pixel first passed through
    [g], gives the original image passed through [g]: the form of the round
    trip that [process_unet_img] relies on. *)
Lemma combine_split_mapped {T : Type} `{AsFloat T} (g : Z → T)
    (img : ndarray Z) (size_x size_y fuel : nat) :
  wf img → 0 < size_x → 0 < size_y → 0 < shape0 img → 0 < shape1 img →
  combine_fuel (border size_y (shape0 img)) (border size_x (shape1 img))
               (shape0 img) (shape1 img) ≤ fuel →
  combine_imgs fuel
    (map_pixels g <$>
       grid_windows (padded img size_x size_y) size_x size_y
         (shape1 (padded img size_x size_y) / size_x)
         (shape0 (padded img size_x size_y) / size_y))
    (border size_y (shape0 img)) (border size_x (shape1 img))
    (shape0 img) (shape1 img)
  = Returns (map_pixels (λ z, as_float (g z)) img).
Proof.
  intros Hwf Hx Hy Hh Hw Hfuel.
  set (p := padded img size_x size_y).
  set (b0 := border size_y (shape0 img)) in *.
  set (b1 := border size_x (shape1 img)) in *.
  set (nx := shape1 p / size_x). set (ny := shape0 p / size_y).
  assert (shape0 p = shape0 img + 2 * b0) as Hp0 by apply padded_shape0.
  assert (shape1 p = shape1 img + 2 * b1) as Hp1 by apply padded_shape1.
  assert (0 < ny) as Hny by (unfold ny; rewrite Hp0; by apply padded_rows_pos).
  assert (0 < nx) as Hnx by (unfold nx; rewrite Hp1; by apply padded_rows_pos).
  pose proof (grid_windows_ok p size_x size_y (wf_padded _ _ _ Hwf) Hx Hy) as Hok0.
  fold nx ny in Hok0.
  set (parts := grid_windows p size_x size_y nx ny) in *.
  assert (Forall (λ q, wf q ∧ shape0 q = size_y ∧ shape1 q = size_x)
            (map_pixels g <$> parts)) as Hok.
  { apply Forall_fmap. eapply Forall_impl; [exact Hok0|].
    intros q (Hq & Hq0 & Hq1). simpl. split_and!; [by apply wf_map_pixels|done..]. }
  assert (map_pixels g <$> parts ≠ []) as Hne.
  { intros Hnil. apply (f_equal length) in Hnil.
    rewrite length_fmap in Hnil. unfold parts in Hnil.
    rewrite length_grid_windows in Hnil. simpl in Hnil. nia. }
  destruct (combine_imgs_returns _ size_y size_x b0 b1 (shape0 img) (shape1 img)
              fuel Hne Hok Hy Hx Hfuel) as (out & -> & Hwfo & Ho0 & Ho1 & Hpx).
  f_equal. apply ndarray_eq; [done|by apply wf_map_pixels|done|done|].
  rewrite Ho0, Ho1. intros r c Hr Hc.
  rewrite Hpx, pixel_map_pixels by done.
  unfold b0 at 1 2 3, b1 at 1 2 3. rewrite !takers_padded by done.
  fold b0 b1. rewrite <- Hp0, <- Hp1. fold nx ny.
  destruct (split_img_patch_of_pixel img size_x size_y r c Hwf Hx Hy Hr Hc)
    as (HR & HC & patch & Hpatch & Hpix).
  fold p b0 b1 nx ny parts in HR, HC, Hpatch, Hpix.
  unfold stitched, patch_index.
  destruct (Nat.ltb_spec ((b0 + r) / size_y) ny); [|lia].
  destruct (Nat.ltb_spec ((b1 + c) / size_x) nx); [|lia].
  cbn [andb]. rewrite length_fmap. unfold parts at 1.
  rewrite length_grid_windows. fold parts.
  destruct (Nat.ltb_spec ((b0 + r) / size_y * nx + (b1 + c) / size_x) (ny * nx));
    [|nia].
  rewrite list_lookup_fmap, Hpatch. cbn [fmap option_fmap option_map mbind option_bind].
  rewrite pixel_map_pixels, Hpix.
  by destruct (pixel_is_some img r c Hwf Hr Hc) as [v ->].
Qed.

(** X1: a patch size of 0 on either axis makes [split_img] raise
    [ZeroDivisionError] (from [max_y % size_y] or [max_x % size_x]), for
    every image. *)
Theorem split_img_zero_size (fuel : nat) (img : ndarray Z)
    (size_x size_y : nat) :
  size_x = 0 ∨ size_y = 0 →
  split_img fuel img size_x size_y = Raises ZeroDivisionError.
Proof.
  intros Hzero. unfold split_img, pad_img.
  destruct size_y as [|sy]; [done|].
  destruct size_x as [|sx]; [|lia].
  cbn [py_mod mbind outcome_bind].
  by destruct (negb (shape0 img mod S sy =? 0)).
Qed.

Lemma split_img_zero_size_witness :
  split_img 5 (full 3 3 7%Z) 0 2 = Raises ZeroDivisionError.
Proof. apply (split_img_zero_size 5 (full 3 3 7%Z) 0 2). by left. Defined.

(** X2: [combine_imgs] on an empty list of patches raises [IndexError]
    (from [imgs[0]]), whatever the borders and the dimensions. *)
Theorem combine_imgs_no_patches {T : Type} `{AsFloat T}
    (fuel border_y border_x max_y max_x : nat) :
  combine_imgs fuel ([] : list (ndarray T)) border_y border_x max_y max_x
    = Raises IndexError.
Proof. done. Qed.

Lemma map_pixels_same {A : Type} (a : ndarray A) : map_pixels (λ z, z) a = a.
Proof.
  destruct a as [h w l]. unfold map_pixels. simpl. f_equal.
  induction l as [|row l IH]; simpl; [done|]. by rewrite map_id, IH.
Qed.

(** X3: the round trip holds for every image with at least one row and one
    column, also when its height or its width is a multiple of the patch
    size: [combine_imgs] on the output of [split_img] returns the original
    image (as [float64] values). *)
Theorem split_combine_roundtrip_nonempty
    (img : ndarray Z) (size_x size_y fuel : nat) :
  wf img → 0 < size_x → 0 < size_y →
  0 < shape0 img → 0 < shape1 img →
  split_fuel img ≤ fuel →
  ∃ parts border_y border_x,
    split_img fuel img size_x size_y = Returns (parts, border_y, border_x)
    ∧ ∀ fuel',
        combine_fuel border_y border_x (shape0 img) (shape1 img) ≤ fuel' →
        combine_imgs fuel' parts border_y border_x (shape0 img) (shape1 img)
          = Returns (map_pixels as_float img).
Proof.
  intros Hwf Hx Hy Hh Hw Hfuel. eexists _, _, _.
  split; [by apply split_img_returns|]. intros fuel' Hfuel'.
  rewrite <- (combine_split_mapped (λ z, z) img size_x size_y fuel')
    by done.
  f_equal. symmetry. rewrite <- (list_fmap_id (grid_windows _ _ _ _ _)) at 2.
  apply list_fmap_ext. intros _ q _. apply map_pixels_same.
Qed.

Lemma split_combine_roundtrip_nonempty_witness :
  ∃ parts border_y border_x,
    split_img 8 (NdArray 2 4 [[1; 2; 3; 4]; [5; 6; 7; 8]]%Z) 2 2
      = Returns (parts, border_y, border_x)
    ∧ ∀ fuel',
        combine_fuel border_y border_x 2 4 ≤ fuel' →
        combine_imgs fuel' parts border_y border_x 2 4
          = Returns (map_pixels as_float
                       (NdArray 2 4 [[1; 2; 3; 4]; [5; 6; 7; 8]]%Z)).
Proof.
  apply (split_combine_roundtrip_nonempty
           (NdArray 2 4 [[1; 2; 3; 4]; [5; 6; 7; 8]]%Z) 2 2 8);
    [split; [reflexivity | repeat constructor]
    | lia | lia | simpl; lia | simpl; lia | unfold split_fuel; simpl; lia].
Defined.

(** X4: [split_img] loses no pixel of the image: the pixel at [(r, c)] is
    found in the patch of index
    [((border_y + r) div size_y) * patches_per_row + (border_x + c) div size_x],
    at row [(border_y + r) mod size_y] and column [(border_x + c) mod size_x].
    What the scan drops of the padded image is frame only. *)
Theorem split_img_keeps_every_pixel
    (img : ndarray Z) (size_x size_y fuel : nat) :
  wf img → 0 < size_x → 0 < size_y → split_fuel img ≤ fuel →
  ∃ parts border_y border_x p max_y max_x,
    split_img fuel img size_x size_y = Returns (parts, border_y, border_x)
    ∧ pad_img img size_x size_y = Returns (p, max_y, max_x, border_y, border_x)
    ∧ ∀ r c, r < shape0 img → c < shape1 img →
        let patches_per_row := max_x / size_x in
        let j := (border_y + r) / size_y * patches_per_row
                 + (border_x + c) / size_x in
        ∃ patch,
          parts !! j = Some patch
          ∧ pixel patch ((border_y + r) mod size_y) ((border_x + c) mod size_x)
            = pixel img r c.
Proof.
  intros Hwf Hx Hy Hfuel. eexists _, _, _, _, _, _.
  split; [by apply split_img_returns|].
  split; [by apply pad_img_returns|].
  intros r c Hr Hc.
  destruct (split_img_patch_of_pixel img size_x size_y r c Hwf Hx Hy Hr Hc)
    as (_ & _ & patch & Hpatch & Hpix).
  by exists patch.
Qed.

Lemma split_img_keeps_every_pixel_witness :
  ∃ parts border_y border_x p max_y max_x,
    split_img 8 (full 3 3 7%Z) 2 2 = Returns (parts, border_y, border_x)
    ∧ pad_img (full 3 3 7%Z) 2 2 = Returns (p, max_y, max_x, border_y, border_x)
    ∧ ∀ r c, r < 3 → c < 3 →
        let patches_per_row := max_x / 2 in
        let j := (border_y + r) / 2 * patches_per_row + (border_x + c) / 2 in
        ∃ patch,
          parts !! j = Some patch
          ∧ pixel patch ((border_y + r) mod 2) ((border_x + c) mod 2)
            = pixel (full 3 3 7%Z) r c.
Proof.
  apply (split_img_keeps_every_pixel (full 3 3 7%Z) 2 2 8);
    [split; [reflexivity | repeat constructor]
    | lia | lia | unfold split_fuel; simpl; lia].
Defined.

Lemma padded_div_ceil size n :
  0 < size → (n + 2 * border size n) / size = (n + size - 1) / size.
Proof.
  intros Hs. destruct (padded_div_mod size n Hs) as [-> _].
  pose proof (Nat.div_mod_eq n size) as Hn.
  pose proof (Nat.mod_upper_bound n size ltac:(lia)) as Hr.
  destruct (Nat.eqb_spec (n mod size) 0) as [E|E].
  - apply (Nat.div_unique _ size _ (size - 1)); lia.
  - apply (Nat.div_unique _ size _ (n mod size - 1)); [lia|].
    rewrite Nat.mul_add_distr_l. lia.
Qed.

(** X5: in terms of the original dimensions, [split_img] returns
    [ceil(max_y / size_y) * ceil(max_x / size_x)] patches, and neither border
    is wider than half a patch: [2 * border_y <= size_y] and
    [2 * border_x <= size_x]. *)
Theorem split_img_count_and_border_bound
    (img : ndarray Z) (size_x size_y fuel : nat) :
  0 < size_x → 0 < size_y → split_fuel img ≤ fuel →
  ∃ parts border_y border_x,
    split_img fuel img size_x size_y = Returns (parts, border_y, border_x)
    ∧ length parts = (shape0 img + size_y - 1) / size_y
                     * ((shape1 img + size_x - 1) / size_x)
    ∧ 2 * border_y ≤ size_y ∧ 2 * border_x ≤ size_x.
Proof.
  intros Hx Hy Hfuel. eexists _, _, _.
  split; [by apply split_img_returns|]. split_and!.
  - rewrite length_grid_windows, padded_shape0, padded_shape1.
    by rewrite !padded_div_ceil.
  - by apply border_le_half.
  - by apply border_le_half.
Qed.

Lemma split_img_count_and_border_bound_witness :
  ∃ parts border_y border_x,
    split_img 8 (full 3 3 7%Z) 2 2 = Returns (parts, border_y, border_x)
    ∧ length parts = 4 ∧ 2 * border_y ≤ 2 ∧ 2 * border_x ≤ 2.
Proof.
  apply (split_img_count_and_border_bound (full 3 3 7%Z) 2 2 8);
    [lia | lia | unfold split_fuel; simpl; lia].
Defined.

(** X6: an image whose height and width are multiples of the patch size gets
    no frame: both borders are 0, and the patches are the windows of the
    image itself, [max_x / size_x] to a row. *)
Theorem split_img_exact_multiple
    (img : ndarray Z) (size_x size_y fuel : nat) :
  0 < size_x → 0 < size_y →
  shape0 img mod size_y = 0 → shape1 img mod size_x = 0 →
  split_fuel img ≤ fuel →
  ∃ parts,
    split_img fuel img size_x size_y = Returns (parts, 0, 0)
    ∧ length parts = shape0 img / size_y * (shape1 img / size_x)
    ∧ ∀ i r c, i < length parts → r < size_y → c < size_x →
        ∃ patch,
          parts !! i = Some patch
          ∧ pixel patch r c
            = pixel img (i / (shape1 img / size_x) * size_y + r)
                        (i mod (shape1 img / size_x) * size_x + c).
Proof.
  intros Hx Hy Ey Ex Hfuel. eexists. split.
  { rewrite split_img_returns by done.
    by rewrite (border_zero _ _ Ey), (border_zero _ _ Ex). }
  assert (padded img size_x size_y = img) as ->.
  { unfold padded. rewrite (border_zero _ _ Ey), (border_zero _ _ Ex).
    by rewrite !copyMakeBorder_none. }
  split; [apply length_grid_windows|].
  intros i r c Hi Hr Hc. rewrite length_grid_windows in Hi.
  eexists. split; [by apply lookup_grid_windows|].
  apply pixel_getslice2; lia.
Qed.

Lemma split_img_exact_multiple_witness :
  ∃ parts,
    split_img 8 (full 2 4 7%Z) 2 2 = Returns (parts, 0, 0)
    ∧ length parts = 2 / 2 * (4 / 2)
    ∧ ∀ i r c, i < length parts → r < 2 → c < 2 →
        ∃ patch,
          parts !! i = Some patch
          ∧ pixel patch r c
            = pixel (full 2 4 7%Z) (i / (4 / 2) * 2 + r) (i mod (4 / 2) * 2 + c).
Proof.
  apply (split_img_exact_multiple (full 2 4 7%Z) 2 2 8);
    [lia | lia | reflexivity | reflexivity | unfold split_fuel; simpl; lia].
Defined.

(** X7: [combine_imgs] never reads past the cells of its scan: patches
    appended to a list that already holds one patch per cell change
    nothing in the result. *)
Theorem combine_imgs_ignores_surplus {T : Type} `{AsFloat T}
    (imgs extra : list (ndarray T))
    (size_y size_x border_y border_x max_y max_x fuel : nat) :
  imgs ≠ [] →
  Forall (λ p, wf p ∧ shape0 p = size_y ∧ shape1 p = size_x) (imgs ++ extra) →
  0 < size_y → 0 < size_x →
  (max_y + border_y * 2 + border_y * 2) / size_y
    * ((max_x + border_x * 2 + border_x * 2) / size_x) ≤ length imgs →
  combine_fuel border_y border_x max_y max_x ≤ fuel →
  combine_imgs fuel (imgs ++ extra) border_y border_x max_y max_x
    = combine_imgs fuel imgs border_y border_x max_y max_x.
Proof.
  intros Hne Hok Hsy Hsx Hcells Hfuel.
  pose proof (proj1 (Forall_app _ _ _) Hok) as [Hok1 _].
  assert (imgs ++ extra ≠ []) as Hne' by (by destruct imgs).
  destruct (combine_imgs_returns (imgs ++ extra) size_y size_x border_y border_x
              max_y max_x fuel Hne' Hok Hsy Hsx Hfuel)
    as (out2 & -> & Hwf2 & H20 & H21 & Hpx2).
  destruct (combine_imgs_returns imgs size_y size_x border_y border_x
              max_y max_x fuel Hne Hok1 Hsy Hsx Hfuel)
    as (out1 & -> & Hwf1 & H10 & H11 & Hpx1).
  f_equal. apply ndarray_eq; [done|done|lia|lia|].
  rewrite H20, H21. intros r c Hr Hc. rewrite Hpx2, Hpx1 by done. f_equal.
  unfold stitched.
  set (ay := takers size_y _ _). set (ax := takers size_x _ _).
  destruct (patch_index size_y size_x ay ax (border_y + r) (border_x + c))
    as [j|] eqn:Hj; [|done].
  apply patch_index_lt in Hj.
  assert (ay * ax ≤ length imgs) as Hle.
  { etrans; [|exact Hcells].
    apply Nat.mul_le_mono; apply takers_le; lia. }
  rewrite length_app.
  destruct (Nat.ltb_spec j (length imgs + length extra)); [|lia].
  destruct (Nat.ltb_spec j (length imgs)); [|lia].
  by rewrite lookup_app_l by lia.
Qed.

Lemma combine_imgs_ignores_surplus_witness :
  combine_imgs 5 ([full 2 2 1%Z] ++ [full 2 2 9%Z]) 0 0 2 2
    = combine_imgs 5 [full 2 2 1%Z] 0 0 2 2.
Proof.
  apply (combine_imgs_ignores_surplus [full 2 2 1%Z] [full 2 2 9%Z]
           2 2 0 0 2 2 5);
    [discriminate
    | repeat constructor
    | lia | lia | simpl; lia | unfold combine_fuel; simpl; lia].
Defined.

(** * Further properties of the rescaling *)

Lemma uint8_img_pixel img r c v :
  uint8_img img = true → pixel img r c = Some v → (0 ≤ v ≤ 255)%Z.
Proof.
  intros Hall Hv. unfold pixel in Hv.
  destruct (rows img !! r) as [row|] eqn:Hrow; simpl in Hv; [|done].
  unfold uint8_img in Hall.
  pose proof (proj1 (forallb_forall _ _) Hall row) as Hr.
  assert (In row (rows img)) as Hin
    by (apply list_elem_of_In; by eapply list_elem_of_lookup_2).
  pose proof (proj1 (forallb_forall _ _) (Hr Hin) v) as Hc.
  assert (In v row) as Hin'
    by (apply list_elem_of_In; by eapply list_elem_of_lookup_2).
  specialize (Hc Hin'). apply andb_prop in Hc as [H0 H1].
  apply Z.leb_le in H0, H1. done.
Qed.

Lemma normalize_range_all :
  forallb (λ k, PrimFloat.leb 0 (normalize k) && PrimFloat.leb (normalize k) 1)
          (seqZ 0 256) = true.
Proof. by vm_compute. Qed.

Lemma normalize_increasing_all :
  forallb (λ k, PrimFloat.ltb (normalize k) (normalize (k + 1)))
          (seqZ 0 255) = true.
Proof. by vm_compute. Qed.

(** X8: [normalize_img] keeps the shape of an 8-bit image and sends every
    pixel into [0.0, 1.0]: level 0 to 0.0, level 255 to 1.0, and a higher
    level to a strictly higher value. *)
Theorem normalize_img_range (img : ndarray Z) :
  uint8_img img = true →
  shape0 (normalize_img img) = shape0 img
  ∧ shape1 (normalize_img img) = shape1 img
  ∧ (∀ r c x, pixel (normalize_img img) r c = Some x →
       PrimFloat.leb 0 x = true ∧ PrimFloat.leb x 1 = true)
  ∧ normalize 0 = 0%float ∧ normalize 255 = 1%float
  ∧ ∀ k, (0 ≤ k < 255)%Z →
      PrimFloat.ltb (normalize k) (normalize (k + 1)) = true.
Proof.
  intros Himg. split_and!; [done|done| |by vm_compute|by vm_compute|].
  - intros r c x Hx. unfold normalize_img in Hx.
    rewrite pixel_map_pixels in Hx.
    destruct (pixel img r c) as [k|] eqn:Hk; [|done].
    simpl in Hx. injection Hx as <-.
    pose proof (uint8_img_pixel img r c k Himg Hk) as Hrange.
    apply andb_prop.
    apply (proj1 (forallb_forall _ _) normalize_range_all).
    apply list_elem_of_In, elem_of_seqZ. lia.
  - intros k Hk.
    apply (proj1 (forallb_forall _ _) normalize_increasing_all).
    apply list_elem_of_In, elem_of_seqZ. lia.
Qed.

Lemma normalize_img_range_witness :
  shape0 (normalize_img (NdArray 1 2 [[0; 200]]%Z)) = 1
  ∧ shape1 (normalize_img (NdArray 1 2 [[0; 200]]%Z)) = 2
  ∧ (∀ r c x, pixel (normalize_img (NdArray 1 2 [[0; 200]]%Z)) r c = Some x →
       PrimFloat.leb 0 x = true ∧ PrimFloat.leb x 1 = true)
  ∧ normalize 0 = 0%float ∧ normalize 255 = 1%float
  ∧ ∀ k, (0 ≤ k < 255)%Z →
      PrimFloat.ltb (normalize k) (normalize (k + 1)) = true.
Proof. apply (normalize_img_range (NdArray 1 2 [[0; 200]]%Z)). reflexivity. Defined.

(** * Properties of [process_unet_img] *)

Lemma length_concat_rows {A : Type} (l : list (list A)) w :
  Forall (λ r, length r = w) l → length (concat l) = length l * w.
Proof.
  induction 1 as [|row l Hrow _ IH]; [done|].
  simpl. rewrite length_app, IH, Hrow. lia.
Qed.

Lemma chunks_concat {A : Type} (l : list (list A)) w :
  Forall (λ r, length r = w) l →
  (λ r, take w (drop (r * w) (concat l))) <$> seq 0 (length l) = l.
Proof.
  induction 1 as [|row l Hrow _ IH]; [done|].
  cbn [length seq concat]. rewrite fmap_cons. f_equal.
  - simpl. by apply take_app_length'.
  - rewrite <- fmap_S_seq, <- list_fmap_compose. rewrite <- IH at 2.
    apply list_fmap_ext. intros _ r _. simpl. f_equal.
    rewrite <- Hrow. apply drop_app_add.
Qed.

(** Reshaping to the shape an array already has changes nothing. *)
Lemma reshape2_same {A : Type} (a : ndarray A) :
  wf a → reshape2 a (shape0 a) (shape1 a) = Returns a.
Proof.
  intros [Hl Hw]. unfold reshape2. rewrite Nat.eqb_refl.
  destruct a as [h w l]. simpl in *. subst h. f_equal. f_equal.
  by apply chunks_concat.
Qed.

Lemma reshape2_returns {A : Type} (a : ndarray A) h w :
  wf a → shape0 a * shape1 a = h * w →
  ∃ a', reshape2 a h w = Returns a' ∧ wf a' ∧ shape0 a' = h ∧ shape1 a' = w.
Proof.
  intros [Hl Hw] Hsize. unfold reshape2.
  destruct (Nat.eqb_spec (shape0 a * shape1 a) (h * w)); [|done].
  eexists. split; [done|]. split_and!; [|done|done].
  split; simpl.
  - by rewrite length_fmap, length_seq.
  - apply Forall_fmap, Forall_forall. intros r Hr.
    apply elem_of_seq in Hr. simpl.
    rewrite length_take, length_drop, (length_concat_rows _ _ Hw), Hl.
    nia.
Qed.

Lemma reshape2_raises {A : Type} (a : ndarray A) h w :
  shape0 a * shape1 a ≠ h * w → reshape2 a h w = Raises ValueError.
Proof.
  intros Hsize. unfold reshape2.
  by destruct (Nat.eqb_spec (shape0 a * shape1 a) (h * w)).
Qed.

Lemma for_each_same {A : Type} (f : A → outcome A) (l : list A) :
  Forall (λ x, f x = Returns x) l → for_each f l = Returns l.
Proof.
  induction 1 as [|x l Hx _ IH]; [done|]. simpl. by rewrite Hx, IH.
Qed.

Lemma for_each_returns {A B : Type} (f : A → outcome B) (P : B → Prop)
    (l : list A) :
  Forall (λ x, ∃ y, f x = Returns y ∧ P y) l →
  ∃ ys, for_each f l = Returns ys ∧ Forall P ys ∧ length ys = length l.
Proof.
  induction 1 as [|x l (y & Hy & HP) _ (ys & Hys & HPs & Hlen)].
  - by exists [].
  - exists (y :: ys). simpl. rewrite Hy, Hys. simpl.
    split_and!; [done|by constructor|by rewrite Hlen].
Qed.

(** The loop stops with the exception of its body when some element raises
    it and no element raises another. *)
Lemma for_each_raises {A B : Type} (f : A → outcome B) (e : exn)
    (l : list A) :
  Forall (λ x, (∃ y, f x = Returns y) ∨ f x = Raises e) l →
  Exists (λ x, f x = Raises e) l →
  for_each f l = Raises e.
Proof.
  induction 1 as [|x l Hx _ IH]; intros Hex; [by apply Exists_nil in Hex|].
  simpl. destruct Hx as [[y Hy]| ->]; [|done].
  rewrite Hy. cbn [mbind outcome_bind].
  apply Exists_cons in Hex as [Hbad|Hex]; [congruence|].
  by rewrite (IH Hex).
Qed.

Lemma process_fuel_split img : split_fuel img ≤ process_fuel img.
Proof. unfold split_fuel, process_fuel. lia. Qed.

Lemma process_fuel_combine img :
  combine_fuel (border 128 (shape0 img)) (border 128 (shape1 img))
               (shape0 img) (shape1 img) ≤ process_fuel img.
Proof.
  unfold combine_fuel, process_fuel.
  pose proof (border_le_half 128 (shape0 img) ltac:(lia)).
  pose proof (border_le_half 128 (shape1 img) ltac:(lia)). lia.
Qed.

(** The batch that [process_unet_img] hands to the model. *)
Lemma process_unet_img_batch img :
  wf img → 0 < shape0 img → 0 < shape1 img →
  let batch := map_pixels normalize <$>
                 grid_windows (padded img 128 128) 128 128
                   (shape1 (padded img 128 128) / 128)
                   (shape0 (padded img 128 128) / 128) in
  batch ≠ []
  ∧ Forall (λ q, wf q ∧ shape0 q = 128 ∧ shape1 q = 128) batch.
Proof.
  intros Hwf Hh Hw batch. split.
  - intros Hnil. apply (f_equal length) in Hnil. unfold batch in Hnil.
    rewrite length_fmap, length_grid_windows, padded_shape0, padded_shape1
      in Hnil.
    pose proof (padded_rows_pos 128 (shape0 img) ltac:(lia) Hh).
    pose proof (padded_rows_pos 128 (shape1 img) ltac:(lia) Hw).
    cbn [length] in Hnil. nia.
  - apply Forall_fmap.
    eapply Forall_impl;
      [apply (grid_windows_ok (padded img 128 128) 128 128);
       [by apply wf_padded|lia|lia]|].
    intros q (Hq & Hq0 & Hq1). simpl.
    split_and!; [by apply wf_map_pixels|done..].
Qed.

Lemma denormalize_normalize_img img :
  wf img → uint8_img img = true →
  map_pixels denormalize (map_pixels (λ z, as_float (normalize z)) img) = img.
Proof.
  intros Hwf Himg.
  apply ndarray_eq; [by do 2 apply wf_map_pixels|done|done|done|].
  intros r c _ _. rewrite !pixel_map_pixels.
  destruct (pixel img r c) as [v|] eqn:Hv; [|done]. simpl. f_equal.
  pose proof (uint8_img_pixel img r c v Himg Hv).
  apply Z.eqb_eq.
  apply (proj1 (forallb_forall _ _) denormalize_normalize_all).
  apply list_elem_of_In, elem_of_seqZ. lia.
Qed.

(** X9: with a model that answers its own input, [process_unet_img] returns
    the image it was given, for every 8-bit image with at least one row and
    one column: tiling, scaling by [1/255], stitching, scaling by 255 and
    the cast to [uint8] undo one another exactly. *)
Theorem process_unet_img_identity_model
    (img : ndarray Z) (batchsize fuel : nat) :
  wf img → uint8_img img = true →
  0 < shape0 img → 0 < shape1 img →
  process_fuel img ≤ fuel →
  process_unet_img (λ parts _, parts) fuel img batchsize = Returns img.
Proof.
  intros Hwf Himg Hh Hw Hfuel. unfold process_unet_img.
  pose proof (process_fuel_split img). pose proof (process_fuel_combine img).
  rewrite split_img_returns by lia. cbn [mbind outcome_bind].
  destruct (process_unet_img_batch img Hwf Hh Hw) as [Hne Hok].
  destruct (map_pixels normalize <$> _) as [|q l] eqn:Hbatch; [done|].
  rewrite <- Hbatch in *. cbn [mbind outcome_bind].
  rewrite for_each_same.
  2:{ eapply Forall_impl; [exact Hok|]. intros a (Ha & Ha0 & Ha1). simpl.
      rewrite <- Ha0 at 1. rewrite <- Ha1 at 1. by apply reshape2_same. }
  cbn [mbind outcome_bind]. rewrite Hbatch at 1. rewrite <- Hbatch.
  rewrite (combine_split_mapped normalize img 128 128 fuel) by (done || lia).
  cbn [mbind outcome_bind]. f_equal. by apply denormalize_normalize_img.
Qed.

Lemma process_unet_img_identity_model_witness :
  process_unet_img (λ parts _, parts) 519
    (NdArray 2 3 [[0; 128; 255]; [7; 200; 31]]%Z) 20
  = Returns (NdArray 2 3 [[0; 128; 255]; [7; 200; 31]]%Z).
Proof.
  apply (process_unet_img_identity_model
           (NdArray 2 3 [[0; 128; 255]; [7; 200; 31]]%Z) 20 519);
    [split; [reflexivity | repeat constructor]
    | reflexivity | simpl; lia | simpl; lia
    | unfold process_fuel; simpl; lia].
Defined.

Lemma forallb_map_pixels {A B : Type} (f : A → B) (P : B → bool)
    (a : ndarray A) :
  (∀ x, P (f x) = true) →
  forallb (forallb P) (rows (map_pixels f a)) = true.
Proof.
  intros HP. apply forallb_forall. intros row' Hrow'. simpl in Hrow'.
  apply in_map_iff in Hrow' as (row & <- & _).
  apply forallb_forall. intros y Hy.
  by apply in_map_iff in Hy as (x & <- & _).
Qed.

Lemma uint8_img_denormalize (a : ndarray float) :
  uint8_img (map_pixels denormalize a) = true.
Proof.
  apply forallb_map_pixels. intros x. unfold denormalize, astype_uint8.
  pose proof (Z.mod_pos_bound (float_trunc (x * 255)) 256 ltac:(lia)).
  apply andb_true_intro. split; apply Z.leb_le; lia.
Qed.

Lemma stack_nonempty {A : Type} (l : list A) :
  l ≠ [] →
  match l with [] => Raises IndexError | _ :: _ => Returns () end = Returns ().
Proof. by destruct l. Qed.

(** With an answer of the right sizes the function returns, and what it
    returns is the cast of a stitched canvas of the input's shape. *)
Lemma process_unet_img_returns
    (predict : list (ndarray float) → nat → list (ndarray float))
    (img : ndarray Z) (batchsize fuel : nat) :
  wf img → 0 < shape0 img → 0 < shape1 img →
  (∀ batch,
     predict batch batchsize ≠ []
     ∧ Forall (λ p, wf p ∧ shape0 p * shape1 p = 128 * 128)
              (predict batch batchsize)) →
  process_fuel img ≤ fuel →
  ∃ canvas,
    process_unet_img predict fuel img batchsize
      = Returns (map_pixels denormalize canvas)
    ∧ wf canvas ∧ shape0 canvas = shape0 img ∧ shape1 canvas = shape1 img.
Proof.
  intros Hwf Hh Hw Hmodel Hfuel. unfold process_unet_img.
  pose proof (process_fuel_split img). pose proof (process_fuel_combine img).
  rewrite split_img_returns by lia. cbn [mbind outcome_bind].
  destruct (process_unet_img_batch img Hwf Hh Hw) as [Hne _].
  set (batch := map_pixels normalize <$> _) in *.
  rewrite (stack_nonempty batch Hne). cbn [mbind outcome_bind].
  destruct (Hmodel batch) as [Hans Hsizes].
  destruct (for_each_returns (λ part, reshape2 part 128 128)
              (λ p, wf p ∧ shape0 p = 128 ∧ shape1 p = 128)
              (predict batch batchsize)) as (tmp & -> & Htmp & Hlen).
  { eapply Forall_impl; [exact Hsizes|]. intros p [Hp Hsize]. simpl.
    by apply reshape2_returns. }
  cbn [mbind outcome_bind].
  assert (tmp ≠ []) as Htmpne.
  { intros ->. simpl in Hlen. by destruct (predict batch batchsize). }
  destruct (combine_imgs_returns tmp 128 128
              (border 128 (shape0 img)) (border 128 (shape1 img))
              (shape0 img) (shape1 img) fuel Htmpne Htmp
              ltac:(lia) ltac:(lia) ltac:(lia))
    as (out & -> & Hwfo & Ho0 & Ho1 & _).
  cbn [mbind outcome_bind]. by exists out.
Qed.

(** X10: whatever the model computes, as long as it answers with at least
    one array and each array holds [128 * 128] values, [process_unet_img]
    returns an 8-bit image with the height and the width of its input. *)
Theorem process_unet_img_shape
    (predict : list (ndarray float) → nat → list (ndarray float))
    (img : ndarray Z) (batchsize fuel : nat) :
  wf img → 0 < shape0 img → 0 < shape1 img →
  (∀ batch,
     predict batch batchsize ≠ []
     ∧ Forall (λ p, wf p ∧ shape0 p * shape1 p = 128 * 128)
              (predict batch batchsize)) →
  process_fuel img ≤ fuel →
  ∃ out,
    process_unet_img predict fuel img batchsize = Returns out
    ∧ wf out ∧ shape0 out = shape0 img ∧ shape1 out = shape1 img
    ∧ uint8_img out = true.
Proof.
  intros Hwf Hh Hw Hmodel Hfuel.
  destruct (process_unet_img_returns predict img batchsize fuel
              Hwf Hh Hw Hmodel Hfuel) as (canvas & -> & Hc & H0 & H1).
  eexists. split; [done|].
  split_and!; [by apply wf_map_pixels|done|done|apply uint8_img_denormalize].
Qed.

Lemma process_unet_img_shape_witness :
  ∃ out,
    process_unet_img (λ _ _, [full 128 128 0.5%float]) 519
      (NdArray 2 3 [[0; 128; 255]; [7; 200; 31]]%Z) 20 = Returns out
    ∧ wf out ∧ shape0 out = 2 ∧ shape1 out = 3 ∧ uint8_img out = true.
Proof.
  apply (process_unet_img_shape (λ _ _, [full 128 128 0.5%float])
           (NdArray 2 3 [[0; 128; 255]; [7; 200; 31]]%Z) 20 519);
    [split; [reflexivity | repeat constructor]
    | simpl; lia | simpl; lia
    | intros batch; split;
      [discriminate
      | constructor; [split; [apply wf_full | reflexivity] | constructor]]
    | unfold process_fuel; simpl; lia].
Defined.

Lemma reshape2_cases {A : Type} (a : ndarray A) h w :
  (∃ a', reshape2 a h w = Returns a') ∨ reshape2 a h w = Raises ValueError.
Proof.
  unfold reshape2. destruct (shape0 a * shape1 a =? h * w); [left|right]; eauto.
Qed.

(** X11: when the model answers with an array that does not hold
    [128 * 128] values, [process_unet_img] raises [ValueError] (from
    [part.shape = (128, 128)]). *)
Theorem process_unet_img_wrong_size
    (predict : list (ndarray float) → nat → list (ndarray float))
    (img : ndarray Z) (batchsize fuel : nat) :
  wf img → 0 < shape0 img → 0 < shape1 img →
  (∀ batch, Exists (λ p, shape0 p * shape1 p ≠ 128 * 128)
                   (predict batch batchsize)) →
  process_fuel img ≤ fuel →
  process_unet_img predict fuel img batchsize = Raises ValueError.
Proof.
  intros Hwf Hh Hw Hmodel Hfuel.
  pose proof (process_fuel_split img).
  destruct (process_unet_img_batch img Hwf Hh Hw) as [Hne _].
  set (batch := map_pixels normalize <$> _) in *.
  unfold process_unet_img.
  rewrite split_img_returns by lia. cbn [mbind outcome_bind].
  fold batch. rewrite (stack_nonempty batch Hne). cbn [mbind outcome_bind].
  rewrite (for_each_raises _ ValueError); [done| |].
  - apply Forall_forall. intros p _. apply reshape2_cases.
  - eapply Exists_impl; [apply Hmodel|]. intros p Hp. simpl in *.
    by apply reshape2_raises.
Qed.

Lemma process_unet_img_wrong_size_witness :
  process_unet_img (λ _ _, [full 2 2 0.5%float]) 519
    (NdArray 2 3 [[0; 128; 255]; [7; 200; 31]]%Z) 20 = Raises ValueError.
Proof.
  apply (process_unet_img_wrong_size (λ _ _, [full 2 2 0.5%float])
           (NdArray 2 3 [[0; 128; 255]; [7; 200; 31]]%Z) 20 519);
    [split; [reflexivity | repeat constructor]
    | simpl; lia | simpl; lia
    | intros batch; constructor; simpl; lia
    | unfold process_fuel; simpl; lia].
Defined.

(** X12: when the model answers with no array at all, [process_unet_img]
    raises [IndexError] (from [imgs[0]] in [combine_imgs]). *)
Theorem process_unet_img_no_answer
    (predict : list (ndarray float) → nat → list (ndarray float))
    (img : ndarray Z) (batchsize fuel : nat) :
  wf img → 0 < shape0 img → 0 < shape1 img →
  (∀ batch, predict batch batchsize = []) →
  process_fuel img ≤ fuel →
  process_unet_img predict fuel img batchsize = Raises IndexError.
Proof.
  intros Hwf Hh Hw Hmodel Hfuel.
  pose proof (process_fuel_split img).
  destruct (process_unet_img_batch img Hwf Hh Hw) as [Hne _].
  set (batch := map_pixels normalize <$> _) in *.
  unfold process_unet_img.
  rewrite split_img_returns by lia. cbn [mbind outcome_bind].
  fold batch. rewrite (stack_nonempty batch Hne). cbn [mbind outcome_bind].
  by rewrite Hmodel.
Qed.

Lemma process_unet_img_no_answer_witness :
  process_unet_img (λ _ _, []) 519
    (NdArray 2 3 [[0; 128; 255]; [7; 200; 31]]%Z) 20 = Raises IndexError.
Proof.
  apply (process_unet_img_no_answer (λ _ _, [])
           (NdArray 2 3 [[0; 128; 255]; [7; 200; 31]]%Z) 20 519);
    [split; [reflexivity | repeat constructor]
    | simpl; lia | simpl; lia
    | reflexivity
    | unfold process_fuel; simpl; lia].
Defined.

(** * Properties of [postprocess_img] and [binarize_img] *)

Lemma forallb_pixel {A : Type} (P : A → bool) (a : ndarray A) r c v :
  forallb (forallb P) (rows a) = true → pixel a r c = Some v → P v = true.
Proof.
  intros Hall Hv. unfold pixel in Hv.
  destruct (rows a !! r) as [row|] eqn:Hrow; simpl in Hv; [|done].
  assert (In row (rows a)) as Hin
    by (apply list_elem_of_In; by eapply list_elem_of_lookup_2).
  pose proof (proj1 (forallb_forall _ _) Hall row Hin) as Hr.
  apply (proj1 (forallb_forall _ _) Hr).
  apply list_elem_of_In. by eapply list_elem_of_lookup_2.
Qed.

Lemma forallb_filtered {A : Type} (P : A → bool) (g : nat → nat → A)
    (l : list (list A)) :
  (∀ r c, P (g r c) = true) →
  forallb (forallb P) (imap (λ r row, imap (λ c _, g r c) row) l) = true.
Proof.
  intros HP. apply forallb_forall. intros row' Hrow'.
  apply list_elem_of_In, list_elem_of_lookup in Hrow' as [r Hr].
  rewrite list_lookup_imap in Hr.
  destruct (l !! r) as [row|]; [|done]. simpl in Hr. injection Hr as <-.
  apply forallb_forall. intros y Hy.
  apply list_elem_of_In, list_elem_of_lookup in Hy as [c Hc].
  rewrite list_lookup_imap in Hc.
  destruct (row !! c); [|done]. simpl in Hc. injection Hc as <-. apply HP.
Qed.

Lemma wf_filtered {A : Type} (g : nat → nat → A) (a : ndarray A) :
  wf a →
  wf (NdArray (shape0 a) (shape1 a)
        (imap (λ r row, imap (λ c _, g r c) row) (rows a))).
Proof.
  intros [Hl Hw]. split; simpl.
  - by rewrite length_imap.
  - apply Forall_lookup. intros r row' Hr. rewrite list_lookup_imap in Hr.
    destruct (rows a !! r) as [row|] eqn:Hrow; [|done].
    simpl in Hr. injection Hr as <-. rewrite length_imap.
    by apply (proj1 (Forall_lookup _ _) Hw r row).
Qed.

Lemma neighbours_two_level (a kernel : ndarray Z) r c :
  two_level a = true →
  Forall (λ v, v = 0%Z ∨ v = 255%Z) (neighbours a kernel r c).
Proof.
  intros Ha. apply Forall_forall. intros v Hv. unfold neighbours in Hv.
  apply list_elem_of_omap in Hv as ([dr dc] & _ & Hv).
  unfold pixel_at in Hv. destruct (_ && _); [|done].
  pose proof (forallb_pixel _ a _ _ v Ha Hv) as Hp. simpl in Hp.
  apply orb_prop in Hp as [Hp|Hp]; apply Z.eqb_eq in Hp; auto.
Qed.

Lemma foldr_min_two_level (l : list Z) :
  Forall (λ v, v = 0%Z ∨ v = 255%Z) l →
  foldr Z.min 255%Z l = 0%Z ∨ foldr Z.min 255%Z l = 255%Z.
Proof.
  induction 1 as [|x l Hx _ IH]; [by right|]. simpl.
  destruct Hx as [->| ->], IH as [->| ->]; simpl; auto.
Qed.

Lemma foldr_max_two_level (l : list Z) :
  Forall (λ v, v = 0%Z ∨ v = 255%Z) l →
  foldr Z.max 0%Z l = 0%Z ∨ foldr Z.max 0%Z l = 255%Z.
Proof.
  induction 1 as [|x l Hx _ IH]; [by left|]. simpl.
  destruct Hx as [->| ->], IH as [->| ->]; simpl; auto.
Qed.

Lemma two_level_spec (v : Z) :
  v = 0%Z ∨ v = 255%Z → (v =? 0)%Z || (v =? 255)%Z = true.
Proof. by intros [->| ->]. Qed.

Lemma wf_postprocess_img (img : ndarray Z) :
  wf img →
  wf (postprocess_img img)
  ∧ shape0 (postprocess_img img) = shape0 img
  ∧ shape1 (postprocess_img img) = shape1 img.
Proof.
  intros Hwf. unfold postprocess_img, threshold_binary_otsu.
  split_and!; [|done|done].
  set (thr := map_pixels _ img).
  assert (wf thr) as Hthr by (by apply wf_map_pixels).
  apply (wf_filtered _ (erode thr _)). apply (wf_filtered _ thr Hthr).
Qed.

(** The last step alone bounds the levels: a maximum over pixels that are 0
    or 255. *)
Lemma two_level_dilate (a kernel : ndarray Z) :
  two_level a = true → two_level (dilate a kernel) = true.
Proof.
  intros Ha. apply forallb_filtered. intros r c.
  apply two_level_spec, foldr_max_two_level. by apply neighbours_two_level.
Qed.

Lemma two_level_erode (a kernel : ndarray Z) :
  two_level a = true → two_level (erode a kernel) = true.
Proof.
  intros Ha. apply forallb_filtered. intros r c.
  apply two_level_spec, foldr_min_two_level. by apply neighbours_two_level.
Qed.

Lemma two_level_postprocess_img (img : ndarray Z) :
  two_level (postprocess_img img) = true.
Proof.
  unfold postprocess_img, threshold_binary_otsu.
  apply two_level_dilate, two_level_erode, forallb_map_pixels.
  intros p. by destruct (_ <? p)%Z.
Qed.

(** X13: [postprocess_img] keeps the height and the width of its input and
    returns only the two levels 0 and 255, whatever threshold Otsu's method
    picks. *)
Theorem postprocess_img_two_level (img : ndarray Z) :
  wf img →
  wf (postprocess_img img)
  ∧ shape0 (postprocess_img img) = shape0 img
  ∧ shape1 (postprocess_img img) = shape1 img
  ∧ two_level (postprocess_img img) = true.
Proof.
  intros Hwf. destruct (wf_postprocess_img img Hwf) as (Ho & H0 & H1).
  split_and!; [done..|]. apply two_level_postprocess_img.
Qed.

Lemma postprocess_img_two_level_witness :
  wf (postprocess_img (NdArray 2 3 [[10; 10; 200]; [10; 200; 200]]%Z))
  ∧ shape0 (postprocess_img (NdArray 2 3 [[10; 10; 200]; [10; 200; 200]]%Z)) = 2
  ∧ shape1 (postprocess_img (NdArray 2 3 [[10; 10; 200]; [10; 200; 200]]%Z)) = 3
  ∧ two_level (postprocess_img (NdArray 2 3 [[10; 10; 200]; [10; 200; 200]]%Z))
    = true.
Proof.
  apply (postprocess_img_two_level
           (NdArray 2 3 [[10; 10; 200]; [10; 200; 200]]%Z)).
  split; [reflexivity | repeat constructor].
Defined.

(** X14: whatever the model computes, as long as it answers with at least
    one array and each array holds [128 * 128] values, [binarize_img]
    returns an image of the height and the width of its input whose pixels
    are all 0 or 255. *)
Theorem binarize_img_two_level
    (predict : list (ndarray float) → nat → list (ndarray float))
    (img : ndarray Z) (batchsize fuel : nat) :
  wf img → 0 < shape0 img → 0 < shape1 img →
  (∀ batch,
     predict batch batchsize ≠ []
     ∧ Forall (λ p, wf p ∧ shape0 p * shape1 p = 128 * 128)
              (predict batch batchsize)) →
  process_fuel img ≤ fuel →
  ∃ out,
    binarize_img predict fuel img batchsize = Returns out
    ∧ wf out ∧ shape0 out = shape0 img ∧ shape1 out = shape1 img
    ∧ two_level out = true.
Proof.
  intros Hwf Hh Hw Hmodel Hfuel. unfold binarize_img, preprocess_img.
  destruct (process_unet_img_returns predict img batchsize fuel
              Hwf Hh Hw Hmodel Hfuel) as (canvas & -> & Hc & H0 & H1).
  cbn [mbind outcome_bind]. eexists. split; [done|].
  destruct (wf_postprocess_img (map_pixels denormalize canvas))
    as (Ho & Ho0 & Ho1); [by apply wf_map_pixels|].
  split_and!; [done| | |apply two_level_postprocess_img].
  - rewrite Ho0. simpl. lia.
  - rewrite Ho1. simpl. lia.
Qed.

Lemma binarize_img_two_level_witness :
  ∃ out,
    binarize_img (λ _ _, [full 128 128 0.5%float]) 519
      (NdArray 2 3 [[0; 128; 255]; [7; 200; 31]]%Z) 20 = Returns out
    ∧ wf out ∧ shape0 out = 2 ∧ shape1 out = 3 ∧ two_level out = true.
Proof.
  apply (binarize_img_two_level (λ _ _, [full 128 128 0.5%float])
           (NdArray 2 3 [[0; 128; 255]; [7; 200; 31]]%Z) 20 519);
    [split; [reflexivity | repeat constructor]
    | simpl; lia | simpl; lia
    | intros batch; split;
      [discriminate
      | constructor; [split; [apply wf_full | reflexivity] | constructor]]
    | unfold process_fuel; simpl; lia].
Defined.

(** * Properties of the file names of [gen_data] *)

Lemma length_string_drop n s :
  String.length (string_drop n s) = String.length s - n.
Proof.
  revert s. induction n as [|n IH]; intros [|c s]; simpl; done || lia.
Qed.

Lemma prefix_length (a b : string) :
  String.prefix a b = true → String.length a ≤ String.length b.
Proof.
  revert b. induction a as [|c a IH]; intros b Hp; simpl; [lia|].
  destruct b as [|d b]; simpl in Hp; [done|].
  destruct (ascii_dec c d); [|done]. apply IH in Hp. simpl. lia.
Qed.

(** Past one step per character, more fuel changes nothing. *)
Lemma py_replace_scan_fuel (c0 : ascii) (old0 new : string) :
  ∀ f1 f2 s,
    String.length s < f1 → String.length s < f2 →
    py_replace_scan f1 (String c0 old0) new s
      = py_replace_scan f2 (String c0 old0) new s.
Proof.
  induction f1 as [|f1 IH]; intros f2 s H1 H2; [lia|].
  destruct f2 as [|f2]; [lia|]. cbn [py_replace_scan].
  destruct (String.prefix (String c0 old0) s) eqn:Hp.
  - f_equal. apply prefix_length in Hp.
    apply IH; rewrite length_string_drop; simpl in *; lia.
  - destruct s as [|c s]; [done|]. f_equal. apply IH; simpl in *; lia.
Qed.

Lemma length_append (a b : string) :
  String.length (a ++ b)%string = String.length a + String.length b.
Proof. induction a as [|c a IH]; simpl; [done|]. by rewrite IH. Qed.

(** No decimal digit starts the word "in": the scan copies the digits. *)
Lemma py_replace_scan_digits (d : Decimal.uint) (rest : string) :
  ∀ fuel,
    String.length (NilEmpty.string_of_uint d ++ rest)%string < fuel →
    py_replace_scan fuel "in" "gt" (NilEmpty.string_of_uint d ++ rest)%string
      = (NilEmpty.string_of_uint d
         ++ py_replace_scan (S (String.length rest)) "in" "gt" rest)%string.
Proof.
  induction d as [|d IH|d IH|d IH|d IH|d IH|d IH|d IH|d IH|d IH|d IH];
    intros fuel Hfuel;
    [cbn [NilEmpty.string_of_uint String.append] in *;
     apply py_replace_scan_fuel; lia|..];
    (destruct fuel as [|fuel]; [simpl in Hfuel; lia|]);
    cbn [NilEmpty.string_of_uint String.append py_replace_scan String.prefix];
    (destruct (ascii_dec _ _) as [Heq|_]; [discriminate Heq|]);
    f_equal; apply IH; simpl in Hfuel; lia.
Qed.

(** X15: the ground truth of the training image number [i], whose name is
    ['{i}_in.png'], is read under the name ['{i}_gt.png']: the
    [replace('in', 'gt')] of [gen_data] only ever hits the suffix, never the
    digits. The names of a call are those of the indices [start] to
    [stop - 1], in order. *)
Theorem gen_data_names (start stop k : nat) :
  k < stop - start →
  length (gen_data_fnames start stop) = stop - start
  ∧ gen_data_fnames start stop !! k
    = Some (str_of_nat (start + k) ++ "_in.png")%string
  ∧ gen_data_gt_name (str_of_nat (start + k) ++ "_in.png")%string
    = (str_of_nat (start + k) ++ "_gt.png")%string.
Proof.
  intros Hk. unfold gen_data_fnames. split_and!.
  - by rewrite length_fmap, length_seq.
  - by rewrite list_lookup_fmap, lookup_seq_lt.
  - unfold gen_data_gt_name, py_replace, str_of_nat, NilZero.string_of_uint.
    destruct (Nat.to_uint (start + k)) eqn:Hd; try done;
      rewrite py_replace_scan_digits by lia; done.
Qed.

Lemma gen_data_names_witness :
  length (gen_data_fnames 8 12) = 4
  ∧ gen_data_fnames 8 12 !! 2 = Some "10_in.png"%string
  ∧ gen_data_gt_name "10_in.png" = "10_gt.png"%string.
Proof. apply (gen_data_names 8 12 2). lia. Defined.

(** * A model that works pixel by pixel *)

Lemma map_pixels_compose {A B C : Type} (f : A → B) (g : B → C)
    (a : ndarray A) :
  map_pixels g (map_pixels f a) = map_pixels (λ x, g (f x)) a.
Proof.
  unfold map_pixels. simpl. f_equal. rewrite map_map.
  apply map_ext. intros row. apply map_map.
Qed.

(** X16: when the model applies one function [m] to every value of every
    patch, [process_unet_img] returns, at each pixel [v] of the image,
    [m (v / 255) * 255] cast to [uint8]: the frame and the seams between
    patches leave no trace in the result. *)
Theorem process_unet_img_pixelwise_model (m : float → float)
    (img : ndarray Z) (batchsize fuel : nat) :
  wf img → 0 < shape0 img → 0 < shape1 img →
  process_fuel img ≤ fuel →
  process_unet_img (λ parts _, map_pixels m <$> parts) fuel img batchsize
    = Returns (map_pixels (λ v, denormalize (m (normalize v))) img).
Proof.
  intros Hwf Hh Hw Hfuel. unfold process_unet_img.
  pose proof (process_fuel_split img). pose proof (process_fuel_combine img).
  rewrite split_img_returns by lia. cbn [mbind outcome_bind].
  destruct (process_unet_img_batch img Hwf Hh Hw) as [Hne Hok].
  set (windows := grid_windows _ _ _ _ _) in *.
  rewrite (stack_nonempty _ Hne). cbn [mbind outcome_bind].
  assert (map_pixels m <$> (map_pixels normalize <$> windows)
          = map_pixels (λ v, m (normalize v)) <$> windows) as ->.
  { rewrite <- list_fmap_compose. apply list_fmap_ext.
    intros _ q _. apply map_pixels_compose. }
  rewrite for_each_same.
  2:{ apply Forall_fmap.
      eapply Forall_impl;
        [apply (grid_windows_ok (padded img 128 128) 128 128);
         [by apply wf_padded|lia|lia]|].
      intros a (Ha & Ha0 & Ha1). simpl.
      pose proof (reshape2_same (map_pixels (λ v, m (normalize v)) a)
                    (wf_map_pixels _ a Ha)) as Hre.
      simpl in Hre. by rewrite Ha0, Ha1 in Hre. }
  cbn [mbind outcome_bind]. unfold windows.
  rewrite (combine_split_mapped (λ v, m (normalize v)) img 128 128 fuel)
    by (done || lia).
  cbn [mbind outcome_bind]. f_equal. apply map_pixels_compose.
Qed.

Lemma process_unet_img_pixelwise_model_witness :
  process_unet_img (λ parts _, map_pixels (λ x, 1 - x)%float <$> parts) 519
    (NdArray 2 3 [[0; 128; 255]; [7; 200; 31]]%Z) 20
  = Returns (map_pixels (λ v, denormalize (1 - normalize v)%float)
               (NdArray 2 3 [[0; 128; 255]; [7; 200; 31]]%Z)).
Proof.
  apply (process_unet_img_pixelwise_model (λ x, 1 - x)%float
           (NdArray 2 3 [[0; 128; 255]; [7; 200; 31]]%Z) 20 519);
    [split; [reflexivity | repeat constructor]
    | simpl; lia | simpl; lia | unfold process_fuel; simpl; lia].
Defined.
